(** * Whiteboard server: document store, relay and sessions

    A shallow embedding of the two server variants of the repository:

    - [Persistent]: [server.js], which keeps the strokes in a Redis list
      ([whiteboard:strokes]) and fans events out with socket.io;
    - [PubSub]: the variant that keeps an in-memory [strokes] array on
      every node and synchronises the nodes through the Redis channel
      [whiteboard-events];

    and of the drawing logic of the client, [client/src/App.jsx]
    ([Canvas]).

    Payloads are JSON values.  Objects are finite maps from property
    names to values; the order of the keys of an object, which only
    shows in the serialised text, is not modelled. *)

From Stdlib Require Import ZArith Ascii String List.
From stdpp Require Import gmap strings list fin_maps pretty.

#[local] Set Warnings "-register-all".
#[local] Open Scope string_scope.
#[local] Open Scope list_scope.

(** ** JSON values *)

Module Json.

(** What [JSON.parse] can return, and what socket.io hands to an event
    handler.  Numbers are kept as integers: the code only compares
    them and tests them for truthiness.  Strings are kept as UTF-8
    text.  A missing handler argument
    ([undefined]) behaves like [null] in every expression the handlers
    apply to it ([data?.userId], [{...data}]), so it is [VNull]. *)
Inductive value : Type :=
  | VNull
  | VBool (b : bool)
  | VNum (n : Z)
  | VStr (s : string)
  | VArr (items : list value)
  | VObj (props : gmap string value).

(** JavaScript truthiness, as used by [||]. *)
Definition truthy (v : value) : bool :=
  match v with
  | VNull => false
  | VBool b => b
  | VNum n => negb (n =? 0)%Z
  | VStr s => negb (s =? "")%string
  | VArr _ => true
  | VObj _ => true
  end.

(** [a === b] for two values obtained from two different
    deserialisations (two [JSON.parse] calls, or a parsed value against
    a handler argument): primitives compare by value, arrays and
    objects compare by reference and the references differ. *)
Definition strict_eq (a b : value) : bool :=
  match a, b with
  | VNull, VNull => true
  | VBool x, VBool y => Bool.eqb x y
  | VNum x, VNum y => (x =? y)%Z
  | VStr x, VStr y => (x =? y)%string
  | _, _ => false
  end.

(** The values that [===] compares by value. *)
Definition primitive (v : value) : bool :=
  match v with
  | VArr _ | VObj _ => false
  | _ => true
  end.

(** [data?.userId]: [None] is [undefined]. *)
Definition get (k : string) (data : value) : option value :=
  match data with
  | VObj o => o !! k
  | _ => None
  end.

(** The own enumerable properties copied by an object spread
    [{...data}]: those of an object, the indices of an array or of a
    string, nothing for the other values. *)
Definition indexed (l : list value) : gmap string value :=
  list_to_map (imap (λ (i : nat) v, (pretty i, v)) l).

(** The code points of a UTF-8 text: [pending] is the part read of the
    code point under way and [need] the number of bytes it still lacks.
    (A byte below 192 where a character starts is its own code point;
    from 128 on, such a byte does not occur in UTF-8 text.) *)
Fixpoint utf8_decode (bytes : list N) (pending : N) (need : nat) : list N :=
  match bytes with
  | [] => []
  | b :: rest =>
      match need with
      | O =>
          if (b <? 192)%N then b :: utf8_decode rest 0%N 0
          else if (b <? 224)%N then utf8_decode rest (N.land b 31) 1
          else if (b <? 240)%N then utf8_decode rest (N.land b 15) 2
          else utf8_decode rest (N.land b 7) 3
      | S n =>
          let p := (pending * 64 + N.land b 63)%N in
          match n with
          | O => p :: utf8_decode rest 0%N 0
          | S _ => utf8_decode rest p n
          end
      end
  end.

(** The UTF-16 code units of a code point: itself, or a surrogate pair. *)
Definition utf16_units (cp : N) : list N :=
  if (cp <? 65536)%N then [cp]
  else [(55296 + (cp - 65536) / 1024)%N; (56320 + (cp - 65536) mod 1024)%N].

(** The string made of one code unit, as UTF-8 text (a lone surrogate is
    written with three bytes, like the other units from 2048 on). *)
Definition unit_string (u : N) : string :=
  string_of_list_ascii
    (List.map ascii_of_N
       (if (u <? 128)%N then [u]
        else if (u <? 2048)%N then [(192 + u / 64)%N; (128 + u mod 64)%N]
        else [(224 + u / 4096)%N; (128 + (u / 64) mod 64)%N; (128 + u mod 64)%N])).

(** The elements a string spreads to: one string per UTF-16 code unit. *)
Definition chars (s : string) : list value :=
  List.map (λ u, VStr (unit_string u))
    (flat_map utf16_units
       (utf8_decode (List.map N_of_ascii (list_ascii_of_string s)) 0%N 0)).

Definition spread (data : value) : gmap string value :=
  match data with
  | VObj o => o
  | VArr l => indexed l
  | VStr s => indexed (chars s)
  | _ => ∅
  end.

End Json.
Export Json.

(** A stroke as the servers hold it: the object built in the [draw]
    handler, [{ x, y, color, userId }] in the source's words. *)
Abbreviation stroke := (gmap string value).

(** ** Sessions *)

(** [const withUser = { ...data, userId };] *)
Definition withUser (data userId : value) : stroke :=
  <["userId" := userId]> (spread data).

(** [s.userId !== targetUser], the predicate both [filter] calls use.  A
    stroke without the property reads [undefined], which differs from
    every user id a session can hold. *)
Definition not_owned_by (targetUser : value) (s : stroke) : bool :=
  match s !! "userId" with
  | Some v => negb (strict_eq v targetUser)
  | None => true
  end.

Definition upper_ascii (c : ascii) : ascii :=
  let n := nat_of_ascii c in
  if (97 <=? n)%nat && (n <=? 122)%nat then ascii_of_nat (n - 32) else c.

(** [String.prototype.toUpperCase] on the ASCII alphabet of socket ids
    (letters, digits, [-] and [_], one byte and one code unit each, so
    that [slice(0, 5)] is [substring 0 5]). *)
Fixpoint toUpperCase (s : string) : string :=
  match s with
  | EmptyString => EmptyString
  | String c r => String (upper_ascii c) (toUpperCase r)
  end.

(** [let userId = null;] *)
Definition unregistered : value := VNull.

(** [userId = data?.userId || socket.id.slice(0, 5).toUpperCase();] *)
Definition register_userId (socket_id : string) (data : value) : value :=
  match get "userId" data with
  | Some v => if truthy v then v else VStr (toUpperCase (substring 0 5 socket_id))
  | None => VStr (toUpperCase (substring 0 5 socket_id))
  end.

(** ** Events sent to clients *)

Inductive event : Type :=
  | UserInfo (userId : value)
  | InitBoard (strokes : list stroke)
  | DrawEv (s : stroke)
  | ClearAllEv
  | ResetBoard (strokes : list stroke).

(** [socket.emit], [socket.broadcast.emit] and [io.emit]. *)
Inductive target : Type :=
  | ToSocket (socket_id : string)
  | ToOthers (socket_id : string)
  | ToAll.

(** The connections of a node that an emission reaches. *)
Definition recipients (conns : list string) (t : target) : list string :=
  match t with
  | ToSocket c => List.filter (λ x, (x =? c)%string) conns
  | ToOthers c => List.filter (λ x, negb (x =? c)%string) conns
  | ToAll => conns
  end.

(** ** [server.js]: strokes in a Redis list *)

Module Persistent.

(** An element of the Redis list: the JSON text of a stroke, kept as
    the stroke it parses to, or a text [JSON.parse] rejects. *)
Inductive entry : Type :=
  | Ser (s : stroke)
  | Junk (text : string).

(** [JSON.stringify] and [JSON.parse] on list elements. *)
Definition stringify (s : stroke) : entry := Ser s.

Definition parse (e : entry) : option stroke :=
  match e with
  | Ser s => Some s
  | Junk _ => None
  end.

(** What a handler does to the outside, in the order it does it. *)
Inductive action : Type :=
  | DidLRange
  | DidLPush (e : entry)
  | DidRPush (es : list entry)
  | DidDel
  | DidEmit (t : target) (ev : event).

(** The list stored under [REDIS_KEY], head first; the outcome of the
    Redis commands still to be issued ([true]: the command fails and
    its promise rejects; none left: it succeeds); the actions so far. *)
Record world : Type := World {
  db : list entry;
  faults : list bool;
  trace : list action
}.

Inductive outcome (A : Type) : Type :=
  | Ok (a : A)
  | Thrown.
Arguments Ok {A} a.
Arguments Thrown {A}.

Definition M (A : Type) : Type := world → outcome A * world.

#[global] Instance M_ret : MRet M := λ A a w, (Ok a, w).

#[global] Instance M_bind : MBind M := λ A B f m w,
  match m w with
  | (Ok a, w') => f a w'
  | (Thrown, w') => (Thrown, w')
  end.

(** [try { m } catch (e) { h }] *)
Definition try_catch {A} (m : M A) (h : M A) : M A := λ w,
  match m w with
  | (Ok a, w') => (Ok a, w')
  | (Thrown, w') => h w'
  end.

(** A Redis command: it fails when the next fault flag says so, and
    otherwise updates the list and answers. *)
Definition command {A} (act : action) (f : list entry → A * list entry) : M A :=
  λ w,
    match faults w with
    | true :: fs => (Thrown, World (db w) fs (trace w))
    | false :: fs =>
        let '(a, d) := f (db w) in (Ok a, World d fs (trace w ++ [act]))
    | [] =>
        let '(a, d) := f (db w) in (Ok a, World d [] (trace w ++ [act]))
    end.

(** Does the next command succeed? *)
Definition passes (fs : list bool) : bool :=
  match fs with
  | true :: _ => false
  | _ => true
  end.

(** [dbClient.lRange(REDIS_KEY, 0, -1)] *)
Definition lRange : M (list entry) := command DidLRange (λ d, (d, d)).

(** [dbClient.lPush(REDIS_KEY, e)] *)
Definition lPush (e : entry) : M unit :=
  command (DidLPush e) (λ d, (tt, e :: d)).

(** [dbClient.rPush(REDIS_KEY, es)] *)
Definition rPush (es : list entry) : M unit :=
  command (DidRPush es) (λ d, (tt, d ++ es)).

(** [dbClient.del(REDIS_KEY)] *)
Definition del : M unit := command DidDel (λ _, (tt, [])).

Definition emit (t : target) (ev : event) : M unit := λ w,
  (Ok tt, World (db w) (faults w) (trace w ++ [DidEmit t ev])).

(** [xs.map((s) => JSON.parse(s))]: the first text that does not parse
    throws. *)
Fixpoint parse_all (es : list entry) : M (list stroke) :=
  match es with
  | [] => mret []
  | e :: r =>
      match parse e with
      | Some s => ss ← parse_all r; mret (s :: ss)
      | None => λ w, (Thrown, w)
      end
  end.

(** [async function getFullBoardState()] *)
Definition getFullBoardState : M (list stroke) :=
  try_catch
    (strokeStrings ← lRange; parse_all (rev strokeStrings))
    (mret []).

(** [socket.on("register", ...)]; the result is the new [userId] of
    the connection, assigned before the first [await]. *)
Definition on_register (socket_id : string) (data : value) : M value :=
  let userId := register_userId socket_id data in
  emit (ToSocket socket_id) (UserInfo userId);;
  strokes ← getFullBoardState;
  emit (ToSocket socket_id) (InitBoard strokes);;
  mret userId.

(** [socket.on("draw", ...)] *)
Definition on_draw (socket_id : string) (userId data : value) : M unit :=
  let withUser := withUser data userId in
  let strokeString := stringify withUser in
  lPush strokeString;;
  emit (ToOthers socket_id) (DrawEv withUser).

(** [socket.on("clear-all", ...)] *)
Definition on_clear_all : M unit :=
  del;;
  emit ToAll ClearAllEv.

(** [socket.on("clear-mine", ...)] *)
Definition on_clear_mine (userId : value) : M unit :=
  let targetUser := userId in
  strokes ← getFullBoardState;
  let remainingStrokes := List.filter (not_owned_by targetUser) strokes in
  del;;
  (if (0 <? length remainingStrokes)%nat
   then rPush (List.map stringify remainingStrokes)
   else mret tt);;
  emit ToAll (ResetBoard remainingStrokes).

(** A world in which every Redis command succeeds. *)
Definition healthy (d : list entry) : world := World d [] [].

(** The emissions of a trace, in order. *)
Definition emitted (tr : list action) : list (target * event) :=
  omap (λ a, match a with DidEmit t ev => Some (t, ev) | _ => None end) tr.

End Persistent.

(** ** The variant with an in-memory [strokes] array and a Redis channel *)

Module PubSub.

(** The envelopes of the channel [whiteboard-events], after
    [JSON.parse]: [{type: "draw", data}], [{type: "clear-all"}] and
    [{type: "clear-user", userId}]. *)
Inductive envelope : Type :=
  | EDraw (data : stroke)
  | EClearAll
  | EClearUser (userId : value).

(** [subClient.subscribe("whiteboard-events", (message) => ...)]: the
    new value of the module variable [strokes] and the events emitted. *)
Definition on_message (msg : envelope) (strokes : list stroke)
  : list stroke * list (target * event) :=
  match msg with
  | EDraw data => (strokes ++ [data], [(ToAll, DrawEv data)])
  | EClearAll => ([], [(ToAll, ClearAllEv)])
  | EClearUser targetUser =>
      let strokes := List.filter (not_owned_by targetUser) strokes in
      (strokes, [(ToAll, ResetBoard strokes)])
  end.

(** [socket.on("register", ...)]: the new [userId] and the two events
    sent back on the socket. *)
Definition on_register (socket_id : string) (data : value) (strokes : list stroke)
  : value * list (target * event) :=
  let userId := register_userId socket_id data in
  (userId, [(ToSocket socket_id, UserInfo userId);
            (ToSocket socket_id, InitBoard strokes)]).

(** The argument of [commandClient.publish] in [socket.on("draw")],
    [socket.on("clear-all")] and [socket.on("clear-mine")]. *)
Definition on_draw (userId data : value) : envelope :=
  let withUser := withUser data userId in
  EDraw withUser.

Definition on_clear_all : envelope := EClearAll.

Definition on_clear_mine (userId : value) : envelope := EClearUser userId.

(** The broker: a published envelope reaches every subscriber, this
    node's own [subClient] included, unless the publish fails. *)
Definition publish (broker_up : bool) (e : envelope) : list envelope :=
  if broker_up then [e] else [].

(** The subscription handler run on each delivered envelope in turn. *)
Fixpoint deliver (msgs : list envelope) (strokes : list stroke)
  : list stroke * list (target * event) :=
  match msgs with
  | [] => (strokes, [])
  | m :: r =>
      let '(strokes1, out1) := on_message m strokes in
      let '(strokes2, out2) := deliver r strokes1 in
      (strokes2, out1 ++ out2)
  end.

(** Does an envelope name a user instead of the strokes to delete? *)
Definition by_user_command (e : envelope) : bool :=
  match e with
  | EClearUser _ => true
  | _ => false
  end.

End PubSub.

(** ** Connections *)

(** What a client sends on its connection. *)
Inductive request : Type :=
  | Register (data : value)
  | Draw (data : value)
  | ClearAll
  | ClearMine.

Definition mutating (r : request) : bool :=
  match r with
  | Register _ => false
  | _ => true
  end.

(** The handler table of [io.on("connection")] in [server.js]; the
    result is the [userId] of the connection after the event. *)
Definition persistent_connection (socket_id : string) (userId : value) (r : request)
  : Persistent.M value :=
  match r with
  | Register data => Persistent.on_register socket_id data
  | Draw data => Persistent.on_draw socket_id userId data;; mret userId
  | ClearAll => Persistent.on_clear_all;; mret userId
  | ClearMine => Persistent.on_clear_mine userId;; mret userId
  end.

(** The same table in the channel variant: the [userId] after the event,
    the envelopes handed to [commandClient.publish] and the events sent
    on the socket.  No handler assigns [strokes]. *)
Definition pubsub_connection (socket_id : string) (userId : value)
    (strokes : list stroke) (r : request)
  : value * list PubSub.envelope * list (target * event) :=
  match r with
  | Register data =>
      let '(userId', out) := PubSub.on_register socket_id data strokes in
      (userId', [], out)
  | Draw data => (userId, [PubSub.on_draw userId data], [])
  | ClearAll => (userId, [PubSub.on_clear_all], [])
  | ClearMine => (userId, [PubSub.on_clear_mine userId], [])
  end.

(** One client event on a node of the channel variant, followed to the
    point where the broker has delivered what the handler published:
    the node's [strokes] and every event it emitted. *)
Definition pubsub_round (broker_up : bool) (socket_id : string) (userId : value)
    (strokes : list stroke) (r : request)
  : value * list stroke * list (target * event) :=
  let '(userId', published, out) := pubsub_connection socket_id userId strokes r in
  let '(strokes', out') :=
    PubSub.deliver (flat_map (PubSub.publish broker_up) published) strokes in
  (userId', strokes', out ++ out').

(** The snapshot a joining connection would be sent by [server.js]. *)
Definition snapshot (w : Persistent.world) : list stroke :=
  match Persistent.getFullBoardState w with
  | (Persistent.Ok strokes, _) => strokes
  | (Persistent.Thrown, _) => []
  end.

(** A sequence of [draw] events, each given with the socket id and the
    [userId] of its connection, handled one after the other. *)
Fixpoint draw_all (draws : list (string * value * value)) : Persistent.M unit :=
  match draws with
  | [] => mret tt
  | (socket_id, userId, data) :: r =>
      Persistent.on_draw socket_id userId data;; draw_all r
  end.

(** The strokes of such a sequence, first drawn first. *)
Definition drawn (draws : list (string * value * value)) : list stroke :=
  List.map (λ '(_, userId, data), withUser data userId) draws.

(** Does an emission reach the connection [c] of a node? *)
Definition reaches (conns : list string) (c : string) (e : target * event) : bool :=
  existsb (λ x, (x =? c)%string) (recipients conns (fst e)).

(** ** Sequences of events *)

(** The events of one connection of [server.js], each handled to
    completion before the next one arrives; the [userId] variable of the
    connection is threaded through.  A handler that throws leaves an
    unhandled rejection, which ends the process: the events behind it
    are not handled. *)
Fixpoint persistent_session (socket_id : string) (userId : value) (rs : list request)
  : Persistent.M value :=
  match rs with
  | [] => mret userId
  | r :: rest =>
      userId' ← persistent_connection socket_id userId r;
      persistent_session socket_id userId' rest
  end.

(** Does the handler of the request leave a rejected promise behind?  The
    promise of [commandClient.publish] is neither awaited nor caught, so
    when the publish fails the rejection is unhandled and ends the
    process. *)
Definition publish_rejected (broker_up : bool) (r : request) : bool :=
  negb broker_up && mutating r.

(** The same for a connection of a node of the channel variant, every
    published envelope being delivered before the next event.  The node
    serves the events up to and including the first whose publish is
    rejected; the result is the state of the node when it stops. *)
Fixpoint pubsub_session (broker_up : bool) (socket_id : string) (userId : value)
    (strokes : list stroke) (rs : list request)
  : value * list stroke * list (target * event) :=
  match rs with
  | [] => (userId, strokes, [])
  | r :: rest =>
      let '(userId1, strokes1, out1) :=
        pubsub_round broker_up socket_id userId strokes r in
      if publish_rejected broker_up r then (userId1, strokes1, out1)
      else
        let '(userId2, strokes2, out2) :=
          pubsub_session broker_up socket_id userId1 strokes1 rest in
        (userId2, strokes2, out1 ++ out2)
  end.


(** The requests that neither variant answers with a per-user rewrite of
    the board. *)
Definition draw_or_clear_all (r : request) : bool :=
  match r with
  | Draw _ | ClearAll => true
  | _ => false
  end.

(** Is the character a lower-case ASCII letter? *)
Definition lower_ascii (c : ascii) : bool :=
  (97 <=? nat_of_ascii c)%nat && (nat_of_ascii c <=? 122)%nat.

(** ** The client: [client/src/App.jsx] *)

Module Canvas.

(** A value read from a property that may be missing: a number, or
    [undefined] ([None]). *)
Abbreviation coordinate := (option Z).

(** [e.nativeEvent].  The handlers are bound to the mouse events of the
    canvas and to its touch events ([onTouchStart], [onTouchMove]); a
    mouse event has [offsetX] and [offsetY], a touch event has neither. *)
Inductive native_event : Type :=
  | MouseEvent (x y : Z)
  | TouchEvent.

(** [const { offsetX, offsetY } = e.nativeEvent;] *)
Definition offsetX (e : native_event) : coordinate :=
  match e with
  | MouseEvent x _ => Some x
  | TouchEvent => None
  end.

Definition offsetY (e : native_event) : coordinate :=
  match e with
  | MouseEvent _ y => Some y
  | TouchEvent => None
  end.

(** An element of the shared array [yLines], with [points] an array as
    in every line the handlers build.  A [color] or [stroke] that is
    missing is kept as the falsy value of its type ([""], [0]): the code
    reads the two through [||] only, which treats a missing and a falsy
    property alike. *)
Record line : Type := Line {
  id : string;
  points : list coordinate;
  color : string;
  stroke : Z
}.

(** The React state [isDrawing] and the content of [yLines] on this
    client, between two remote updates. *)
Record state : Type := State {
  isDrawing : bool;
  yLines : list line
}.

(** [broadcastUpdate]: the whole document is encoded and sent. *)
Inductive effect : Type :=
  | SyncUpdate (document : list line).

(** [yLines.push(xs)], [yLines.delete(i, n)] and [yLines.insert(i, xs)]
    as this client sees them. *)
Definition y_push (xs l : list line) : list line := l ++ xs.

Definition y_delete (i n : nat) (l : list line) : list line :=
  take i l ++ drop (i + n) l.

Definition y_insert (i : nat) (xs l : list line) : list line :=
  take i l ++ xs ++ drop i l.

(** [startDrawing]; the fresh [uuidv4()] and the current colour and
    width are arguments. *)
Definition startDrawing (new_id : string) (currentColor : string) (currentStroke : Z)
    (e : native_event) (st : state) : state * list effect :=
  let newLine := Line new_id [offsetX e; offsetY e] currentColor currentStroke in
  let l := y_push [newLine] (yLines st) in
  (State true l, [SyncUpdate l]).

(** [draw] *)
Definition draw (e : native_event) (st : state) : state * list effect :=
  if negb (isDrawing st) then (st, [])
  else
    match length (yLines st) with
    | O => (st, [])
    | S lastLineIndex =>
        match yLines st !! lastLineIndex with
        | None => (st, [])
        | Some currentLine =>
            let l1 := y_delete lastLineIndex 1 (yLines st) in
            let updatedPoints := points currentLine ++ [offsetX e; offsetY e] in
            let l2 :=
              y_insert lastLineIndex
                [Line (id currentLine) updatedPoints (color currentLine)
                   (stroke currentLine)] l1 in
            (State (isDrawing st) l2, [SyncUpdate l2])
        end
    end.

(** [endDrawing] *)
Definition endDrawing (st : state) : state * list effect :=
  if negb (isDrawing st) then (st, [])
  else (State false (yLines st), [SyncUpdate (yLines st)]).

(** [handleClear] *)
Definition handleClear (st : state) : state * list effect :=
  let l := y_delete 0 (length (yLines st)) (yLines st) in
  (State (isDrawing st) l, [SyncUpdate l]).

(** The calls made on the 2D context, with the values they are passed. *)
Inductive ctx_op : Type :=
  | ClearRect (x y w h : Z)
  | BeginPath
  | StrokeStyle (c : string)
  | LineWidth (w : Z)
  | MoveTo (x y : coordinate)
  | LineTo (x y : coordinate)
  | Stroke.

(** [points[i]]: the element, or [undefined] past the end. *)
Definition at_index (points : list coordinate) (i : nat) : coordinate :=
  match points !! i with
  | Some c => c
  | None => None
  end.

(** The body of the [forEach] callback from [const points] on: the loop
    runs for [i = 2, 4, ...] while [i < points.length]. *)
Definition trace_points (points : list coordinate) : list ctx_op :=
  if (0 <? length points)%nat then
    MoveTo (at_index points 0) (at_index points 1)
    :: List.map (λ j : nat,
                   LineTo (at_index points (2 + 2 * j)) (at_index points (2 + 2 * j + 1)))
         (seq 0 ((length points - 1) / 2))
  else [].

Definition draw_line (ln : line) : list ctx_op :=
  [BeginPath;
   StrokeStyle (if (color ln =? "")%string then "#000" else color ln);
   LineWidth (if (stroke ln =? 0)%Z then 3%Z else stroke ln)]
  ++ trace_points (points ln) ++ [Stroke].

(** [drawCanvas]; [canvas] is [None] while [canvasRef.current] is null,
    and otherwise the width and height of the element. *)
Definition drawCanvas (canvas : option (Z * Z)) (l : list line) : list ctx_op :=
  match canvas with
  | None => []
  | Some (w, h) => ClearRect 0 0 w h :: flat_map draw_line l
  end.

(** What the user does on the canvas: a press ([onMouseDown],
    [onTouchStart]), a move ([onMouseMove], [onTouchMove]), a release
    ([onMouseUp], [onMouseLeave], [onTouchEnd]) and the clear button. *)
Inductive input : Type :=
  | PointerDown (new_id : string) (currentColor : string) (currentStroke : Z)
      (e : native_event)
  | PointerMove (e : native_event)
  | PointerUp
  | ClearButton.

Definition handle (i : input) (st : state) : state * list effect :=
  match i with
  | PointerDown new_id c w e => startDrawing new_id c w e st
  | PointerMove e => draw e st
  | PointerUp => endDrawing st
  | ClearButton => handleClear st
  end.

Fixpoint run (inputs : list input) (st : state) : state :=
  match inputs with
  | [] => st
  | i :: r => run r (fst (handle i st))
  end.

(** The flat array of the values read from a sequence of events. *)
Definition coords (es : list native_event) : list coordinate :=
  flat_map (λ e, [offsetX e; offsetY e]) es.

Definition is_mouse (e : native_event) : bool :=
  match e with
  | MouseEvent _ _ => true
  | TouchEvent => false
  end.

(** Does the input come with a mouse event, if with any? *)
Definition by_mouse (i : input) : bool :=
  match i with
  | PointerDown _ _ _ e | PointerMove e => is_mouse e
  | _ => true
  end.

(** A line as the handlers build it: at least one position, and two
    array elements for each. *)
Definition whole (ln : line) : bool :=
  (0 <? length (points ln))%nat && Nat.even (length (points ln)).

(** A line all of whose array elements are numbers. *)
Definition numeric (ln : line) : bool :=
  forallb (λ c : coordinate, bool_decide (is_Some c)) (points ln).

(** Is every coordinate passed to the context a number? *)
Definition defined (op : ctx_op) : bool :=
  match op with
  | MoveTo x y | LineTo x y => bool_decide (is_Some x) && bool_decide (is_Some y)
  | _ => true
  end.

End Canvas.

(** * Properties *)

Import Persistent.

(** ** Strict equality and ownership *)

Lemma strict_eq_eq (a b : value) : strict_eq a b = true → a = b.
Proof.
  destruct a, b; simpl; try discriminate; intros H.
  - reflexivity.
  - apply Bool.eqb_prop in H. by subst.
  - apply Z.eqb_eq in H. by subst.
  - apply String.eqb_eq in H. by subst.
Qed.

Lemma strict_eq_refl (a : value) : primitive a = true → strict_eq a a = true.
Proof.
  destruct a; simpl; try discriminate; intros _.
  - reflexivity.
  - apply Bool.eqb_reflx.
  - apply Z.eqb_refl.
  - apply String.eqb_refl.
Qed.

Lemma withUser_userId (data u : value) : withUser data u !! "userId" = Some u.
Proof. unfold withUser. apply lookup_insert_eq. Qed.

Lemma withUser_owned (data u : value) :
  primitive u = true → not_owned_by u (withUser data u) = false.
Proof.
  intros Hp. unfold not_owned_by. rewrite withUser_userId.
  by rewrite strict_eq_refl.
Qed.

Lemma not_owned_by_neq (u : value) (s : stroke) :
  not_owned_by u s = true → primitive u = true → s !! "userId" ≠ Some u.
Proof.
  unfold not_owned_by. intros Hk Hp Hs. rewrite Hs in Hk.
  rewrite strict_eq_refl in Hk by done. discriminate.
Qed.

Lemma owned_eq (u : value) (s : stroke) :
  not_owned_by u s = false → s !! "userId" = Some u.
Proof.
  unfold not_owned_by. destruct (s !! "userId") as [v|]; [|discriminate].
  intros H. apply Bool.negb_false_iff, strict_eq_eq in H. by subst.
Qed.

(** ** Registration *)

Example register_declared :
  register_userId "q7Rk2xYzAbCdEfGh0123" (VObj {["userId" := VStr "anna"]}) = VStr "anna".
Proof. reflexivity. Qed.

Example register_derived :
  register_userId "q7Rk2xYzAbCdEfGh0123" (VObj ∅) = VStr "Q7RK2"
  ∧ register_userId "q7Rk2xYzAbCdEfGh0123" VNull = VStr "Q7RK2"
  ∧ register_userId "q7Rk2xYzAbCdEfGh0123" (VObj {["userId" := VStr ""]}) = VStr "Q7RK2"
  ∧ register_userId "q7Rk2xYzAbCdEfGh0123" (VObj {["userId" := VNum 0]}) = VStr "Q7RK2".
Proof. repeat split; vm_compute; reflexivity. Qed.

(** The user id of a registered connection is never [null]. *)
Lemma register_userId_truthy (socket_id : string) (data : value) :
  socket_id ≠ "" → truthy (register_userId socket_id data) = true.
Proof.
  intros Hne. unfold register_userId.
  assert (Hd : truthy (VStr (toUpperCase (substring 0 5 socket_id))) = true).
  { destruct socket_id as [|c r]; [done|]. reflexivity. }
  destruct (get "userId" data) as [v|]; [|exact Hd].
  destruct (truthy v) eqn:Hv; [exact Hv | exact Hd].
Qed.

Example spread_array :
  spread (VArr [VNum 7; VNum 8]) = {["0" := VNum 7; "1" := VNum 8]}
  ∧ spread (VStr "hi") = {["0" := VStr "h"; "1" := VStr "i"]}
  ∧ spread (VNum 3) = ∅.
Proof. repeat split; vm_compute; reflexivity. Qed.

(** A string spreads to its UTF-16 code units: one for a character of the
    basic plane, two surrogates for a character beyond it. *)
Example spread_string_units :
  spread (VStr "a€") = {["0" := VStr "a"; "1" := VStr "€"]}
  ∧ spread (VStr "é") = {["0" := VStr "é"]}
  ∧ size (spread (VStr "😀")) = 2%nat
  ∧ List.map unit_string (utf16_units 128512) =
      List.map unit_string [55357%N; 56832%N].
Proof. repeat split; vm_compute; reflexivity. Qed.

(** ** The Redis list and the snapshot *)

Lemma parse_all_Ser (l : list stroke) (w : world) :
  parse_all (List.map Ser l) w = (Ok l, w).
Proof.
  revert w. induction l as [|s l IH]; intros w; simpl; [done|].
  unfold mbind, M_bind. by rewrite IH.
Qed.

Lemma parse_all_world (es : list entry) (w : world) :
  snd (parse_all es w) = w.
Proof.
  revert w. induction es as [|e es IH]; intros w; simpl; [done|].
  destruct e as [s|t]; simpl; [|done].
  unfold mbind, M_bind. specialize (IH w).
  destruct (parse_all es w) as [[ss|] w1]; simpl in *; by subst.
Qed.

Lemma parse_all_In (es : list entry) (w w' : world) (ss : list stroke) :
  parse_all es w = (Ok ss, w') → ∀ s, In s ss → In (Ser s) es.
Proof.
  revert ss w'. induction es as [|e es IH]; intros ss w' H s Hs; simpl in *.
  - injection H as <- _. destruct Hs.
  - destruct e as [s0|t]; simpl in H; [|discriminate].
    unfold mbind, M_bind in H.
    destruct (parse_all es w) as [[ss0|] w1] eqn:E; [|discriminate].
    injection H as <- _. destruct Hs as [->|Hs]; [by left|].
    right. eapply IH; eauto.
Qed.

(** A failed [lRange] is caught: the snapshot is empty and nothing is
    thrown. *)
Lemma getFullBoardState_read_fails (d : list entry) (fs : list bool) (tr : list action) :
  getFullBoardState (World d (true :: fs) tr) = (Ok [], World d fs tr).
Proof. reflexivity. Qed.

(** A text that does not parse is caught the same way. *)
Lemma getFullBoardState_parse_fails (d1 d2 : list entry) (t : string) (tr : list action) :
  fst (getFullBoardState (World (d1 ++ Junk t :: d2) [] tr)) = Ok [].
Proof.
  unfold getFullBoardState, try_catch, mbind, M_bind, lRange, command. simpl.
  rewrite rev_app_distr. simpl. rewrite <- app_assoc. simpl.
  set (w := World _ _ _).
  assert (H : fst (parse_all (rev d2 ++ Junk t :: rev d1) w) = Thrown).
  { generalize (rev d2). intros l. induction l as [|e l IH]; simpl; [done|].
    destruct e as [s|t']; simpl; [|done].
    unfold mbind, M_bind. destruct (parse_all _ w) as [[ss|] w1]; simpl in *; done. }
  destruct (parse_all _ w) as [[ss|] w1]; simpl in *; [discriminate|done].
Qed.

Lemma command_passes {A} (act : action) (f : list entry → A * list entry) (w : world) :
  passes (faults w) = true →
  command act f w =
    (Ok (fst (f (db w))), World (snd (f (db w))) (tail (faults w)) (trace w ++ [act])).
Proof.
  unfold command. destruct w as [d fs tr]; simpl.
  destruct fs as [|[] fs]; simpl; try discriminate; intros _;
    by destruct (f d).
Qed.

Lemma command_fails {A} (act : action) (f : list entry → A * list entry) (w : world) :
  passes (faults w) = false →
  command act f w = (Thrown, World (db w) (tail (faults w)) (trace w)).
Proof.
  unfold command. destruct w as [d fs tr]; simpl.
  destruct fs as [|[] fs]; simpl; try discriminate; done.
Qed.

Lemma getFullBoardState_read_ok (l : list stroke) (fs : list bool) (tr : list action) :
  passes fs = true →
  getFullBoardState (World (List.map Ser l) fs tr) =
    (Ok (rev l), World (List.map Ser l) (tail fs) (tr ++ [DidLRange])).
Proof.
  intros Hp. unfold getFullBoardState, try_catch, mbind, M_bind, lRange.
  rewrite command_passes by done. simpl.
  by rewrite <- map_rev, parse_all_Ser.
Qed.

(** The snapshot function never throws, leaves the list alone, uses one
    command, and returns strokes of the list only. *)
Lemma getFullBoardState_total (w : world) :
  ∃ ss tr, getFullBoardState w = (Ok ss, World (db w) (tail (faults w)) tr)
           ∧ ∀ s, In s ss → In (Ser s) (db w).
Proof.
  unfold getFullBoardState, try_catch, mbind, M_bind, lRange.
  destruct (passes (faults w)) eqn:Hp.
  - rewrite command_passes by done. simpl.
    set (w1 := World _ _ _).
    pose proof (parse_all_world (rev (db w)) w1) as Hw.
    destruct (parse_all (rev (db w)) w1) as [[ss|] w2] eqn:E; simpl in Hw; subst w2.
    + exists ss, (trace w ++ [DidLRange]). split; [done|].
      intros s Hs. apply in_rev. eapply parse_all_In; eauto.
    + exists [], (trace w ++ [DidLRange]). split; [done|]. intros s [].
  - rewrite command_fails by done. simpl.
    exists [], (trace w). split; [done|]. intros s [].
Qed.

Lemma snapshot_In (w : world) (s : stroke) : In s (snapshot w) → In (Ser s) (db w).
Proof.
  unfold snapshot. destruct (getFullBoardState_total w) as (ss & tr & -> & H).
  apply H.
Qed.

Lemma snapshot_healthy (l : list stroke) : snapshot (healthy (List.map Ser l)) = rev l.
Proof. unfold snapshot, healthy. by rewrite getFullBoardState_read_ok. Qed.

(** ** The per-user clear of [server.js] *)

(** Whenever the handler completes, the list it leaves holds the texts of
    the strokes it read and kept, in the order it read them. *)
Lemma on_clear_mine_done (u : value) (w w' : world) :
  on_clear_mine u w = (Ok tt, w') →
  ∃ ss, (∀ s, In s ss → In (Ser s) (db w))
        ∧ db w' = List.map Ser (List.filter (not_owned_by u) ss).
Proof.
  unfold on_clear_mine, mbind, M_bind.
  destruct (getFullBoardState_total w) as (ss & tr & -> & Hss).
  intros H. exists ss. split; [done|].
  unfold del in H.
  set (w1 := World _ _ _) in H.
  destruct (passes (faults w1)) eqn:Hp1.
  2:{ rewrite command_fails in H by done. discriminate. }
  rewrite command_passes in H by done. simpl in H.
  destruct (List.filter (not_owned_by u) ss) as [|r rs] eqn:Hrem; simpl in H.
  - unfold mret, M_ret, emit in H. simpl in H. by injection H as <-.
  - unfold rPush in H.
    set (w2 := World _ _ _) in H.
    destruct (passes (faults w2)) eqn:Hp2.
    2:{ rewrite command_fails in H by done. discriminate. }
    rewrite command_passes in H by done. simpl in H.
    unfold emit in H. simpl in H. by injection H as <-.
Qed.

(** With Redis answering every command the handler completes. *)
Lemma on_clear_mine_healthy (u : value) (l : list stroke) :
  ∃ tr, on_clear_mine u (healthy (List.map Ser l)) =
          (Ok tt, World (List.map Ser (List.filter (not_owned_by u) (rev l))) [] tr).
Proof.
  unfold on_clear_mine, mbind, M_bind, healthy.
  rewrite getFullBoardState_read_ok by done. simpl.
  destruct (List.filter (not_owned_by u) (rev l)) as [|r rs] eqn:Hrem; simpl.
  - eexists. reflexivity.
  - eexists. reflexivity.
Qed.

(** What a connection registering after the clear is sent: the kept
    strokes, latest first. *)
Lemma clear_mine_snapshot_reversed (u : value) (l : list stroke) :
  snapshot (snd (on_clear_mine u (healthy (List.map Ser l)))) =
    rev (List.filter (not_owned_by u) (snapshot (healthy (List.map Ser l)))).
Proof.
  destruct (on_clear_mine_healthy u l) as [tr ->]. simpl.
  rewrite snapshot_healthy.
  unfold snapshot. by rewrite getFullBoardState_read_ok.
Qed.

(** ** Saving strokes *)

Lemma on_draw_passes (sid : string) (u data : value) (w : world) :
  passes (faults w) = true →
  on_draw sid u data w =
    (Ok tt, World (Ser (withUser data u) :: db w) (tail (faults w))
              (trace w ++ [DidLPush (Ser (withUser data u));
                           DidEmit (ToOthers sid) (DrawEv (withUser data u))])).
Proof.
  intros Hp. unfold on_draw, mbind, M_bind, lPush, stringify.
  rewrite command_passes by done. simpl. unfold emit. simpl.
  by rewrite <- app_assoc.
Qed.

Lemma on_draw_fails (sid : string) (u data : value) (w : world) :
  passes (faults w) = false →
  on_draw sid u data w = (Thrown, World (db w) (tail (faults w)) (trace w)).
Proof.
  intros Hp. unfold on_draw, mbind, M_bind, lPush.
  by rewrite command_fails.
Qed.

Lemma draw_all_healthy (draws : list (string * value * value)) (d : list entry) (tr : list action) :
  ∃ tr', draw_all draws (World d [] tr) =
           (Ok tt, World (rev (List.map Ser (drawn draws)) ++ d) [] tr').
Proof.
  revert d tr. induction draws as [|[[sid u] data] r IH]; intros d tr; simpl.
  - by exists tr.
  - unfold mbind, M_bind. rewrite on_draw_passes by done. simpl.
    destruct (IH (Ser (withUser data u) :: d)
                 (tr ++ [DidLPush (Ser (withUser data u));
                         DidEmit (ToOthers sid) (DrawEv (withUser data u))]))
      as [tr' ->].
    exists tr'. by rewrite <- app_assoc.
Qed.

(** C9: [getFullBoardState] returns the empty list when the read of the
    Redis list fails, so that [register] still sends [init-board] (with
    no strokes); when the read succeeds it returns the parsed entries in
    reverse, which for a list written by [draw] events, each pushed at
    the head, is the order in which the strokes were drawn. *)
Theorem C9_snapshot_error_policy_and_order :
  (∀ d fs tr,
     getFullBoardState (World d (true :: fs) tr) = (Ok [], World d fs tr))
  ∧ (∀ sid data d fs,
       let r := on_register sid data (World d (true :: fs) []) in
       fst r = Ok (register_userId sid data)
       ∧ emitted (trace (snd r)) =
           [(ToSocket sid, UserInfo (register_userId sid data));
            (ToSocket sid, InitBoard [])])
  ∧ (∀ l fs tr,
       getFullBoardState (World (List.map Ser l) (false :: fs) tr) =
         (Ok (rev l), World (List.map Ser l) fs (tr ++ [DidLRange])))
  ∧ (∀ l tr,
       getFullBoardState (World (List.map Ser l) [] tr) =
         (Ok (rev l), World (List.map Ser l) [] (tr ++ [DidLRange])))
  ∧ (∀ draws,
       let w := snd (draw_all draws (healthy [])) in
       fst (draw_all draws (healthy [])) = Ok tt
       ∧ snapshot w = drawn draws).
Proof.
  split; [|split; [|split; [|split]]].
  - intros. apply getFullBoardState_read_fails.
  - intros sid data d fs. simpl. split; reflexivity.
  - intros l fs tr. by rewrite getFullBoardState_read_ok.
  - intros l tr. by rewrite getFullBoardState_read_ok.
  - intros draws. simpl. unfold healthy.
    destruct (draw_all_healthy draws [] []) as [tr' ->]. simpl.
    split; [done|].
    rewrite app_nil_r, <- map_rev.
    unfold snapshot. rewrite getFullBoardState_read_ok by done.
    apply rev_involutive.
Qed.

(** C4, as stated, fails for a user id that is an object: a connection
    registers with [userId: {name: "anna"}], draws and sends
    [clear-mine]; every command succeeds, the handler completes, and the
    stroke of the connection, stamped with that very user id, is still
    in the list and in the snapshot.  The parsed copy of the id is never
    [===] to the id the connection holds. *)
Lemma C4_object_id_keeps_own_strokes :
  let u := VObj {["name" := VStr "anna"]} in
  let data := VObj {["x" := VNum 1]} in
  let r := persistent_session "q7rk2xYzAbCd" unregistered
             [Register (VObj {["userId" := u]}); Draw data; ClearMine]
             (healthy []) in
  fst r = Ok u
  ∧ db (snd r) = [Ser (withUser data u)]
  ∧ snapshot (snd r) = [withUser data u]
  ∧ withUser data u !! "userId" = Some u.
Proof. repeat split; vm_compute; reflexivity. Qed.

Lemma compound_id_owns_nothing (v : value) (l : list stroke) :
  primitive v = false → List.filter (not_owned_by v) l = l.
Proof.
  intros Hv. induction l as [|s l IH]; simpl; [done|].
  assert (Hs : not_owned_by v s = true).
  { unfold not_owned_by. destruct (s !! "userId") as [x|]; [|done].
    destruct x, v; try discriminate; reflexivity. }
  by rewrite Hs, IH.
Qed.

(** C4, amended: for a user id [u] that is a string, a number, a boolean
    or [null], when the [clear-mine] handler of a connection with user
    id [u] completes, no entry of the Redis list and no stroke of a
    snapshot read from it has the [userId] [u], and every entry is the
    text of a stroke; the same holds for the [strokes] array of a node of
    the channel variant after a [clear-user] envelope for [u].  For a
    user id that is an object or an array the filter keeps every
    stroke. *)
Theorem C4_clear_mine_complete_primitive_id (u : value) (w w' : world)
    (Hprim : primitive u = true)
    (Hdone : on_clear_mine u w = (Ok tt, w')) :
  (∀ e, In e (db w') → ∃ s, e = Ser s ∧ s !! "userId" ≠ Some u)
  ∧ (∀ fs tr s, In s (snapshot (World (db w') fs tr)) → s !! "userId" ≠ Some u)
  ∧ (∀ strokes s, In s (fst (PubSub.on_message (PubSub.EClearUser u) strokes)) →
       s !! "userId" ≠ Some u)
  ∧ (∀ v l, primitive v = false → List.filter (not_owned_by v) l = l).
Proof.
  destruct (on_clear_mine_done u w w' Hdone) as (ss & _ & Hdb).
  assert (Hstore : ∀ e, In e (db w') → ∃ s, e = Ser s ∧ s !! "userId" ≠ Some u).
  { intros e He. rewrite Hdb in He. apply in_map_iff in He as (s & <- & Hs).
    apply filter_In in Hs as [_ Hk]. exists s.
    split; [done|]. by apply not_owned_by_neq. }
  split; [exact Hstore|]. split; [|split].
  - intros fs tr s Hs. apply snapshot_In in Hs. simpl in Hs.
    by destruct (Hstore _ Hs) as (s' & [= <-] & Hne).
  - intros strokes s Hs. simpl in Hs. apply filter_In in Hs as [_ Hk].
    by apply not_owned_by_neq.
  - intros v l. apply compound_id_owns_nothing.
Qed.

(** The handler completes on a list holding strokes of two users, and
    only the other user's stroke is left. *)
Lemma C4_clear_mine_complete_primitive_id_witness :
  let a := withUser (VObj {["x" := VNum 1]}) (VStr "ANNA") in
  let b := withUser (VObj {["x" := VNum 2]}) (VStr "BOB") in
  let w' := snd (on_clear_mine (VStr "ANNA") (healthy [Ser b; Ser a])) in
  db w' = [Ser b]
  ∧ ∀ e, In e (db w') → ∃ s, e = Ser s ∧ s !! "userId" ≠ Some (VStr "ANNA").
Proof.
  split; [vm_compute; reflexivity|].
  apply (C4_clear_mine_complete_primitive_id (VStr "ANNA")
           (healthy [Ser (withUser (VObj {["x" := VNum 2]}) (VStr "BOB"));
                     Ser (withUser (VObj {["x" := VNum 1]}) (VStr "ANNA"))])).
  - reflexivity.
  - vm_compute; reflexivity.
Defined.

(** Every stroke the filter does not attribute to [u] is still in the
    list after the clear. *)
Lemma clear_mine_keeps_others (u : value) (l : list stroke) (s : stroke) :
  In s l → not_owned_by u s = true →
  In (Ser s) (db (snd (on_clear_mine u (healthy (List.map Ser l))))).
Proof.
  intros Hin Hk. destruct (on_clear_mine_healthy u l) as [tr ->]. simpl.
  apply in_map, filter_In. split; [|done]. by apply in_rev in Hin.
Qed.

(** C10: two strokes of BOB, [b1] drawn before [b2], and a [clear-mine]
    of ANNA, who owns nothing.  Both strokes stay, but the handler writes
    them back with [rPush] in the order it read them, oldest first, into
    a list that [getFullBoardState] reads as latest first: the snapshot
    sent to the next connection has them in the opposite order, while the
    [reset-board] event of the same handler has them in the order they
    were drawn. *)
Theorem C10_clear_mine_reverses_order :
  let b1 := withUser (VObj {["x" := VNum 1]}) (VStr "BOB") in
  let b2 := withUser (VObj {["x" := VNum 2]}) (VStr "BOB") in
  let w := healthy [Ser b2; Ser b1] in
  let w' := snd (on_clear_mine (VStr "ANNA") w) in
  snapshot w = [b1; b2]
  ∧ fst (on_clear_mine (VStr "ANNA") w) = Ok tt
  ∧ db w' = [Ser b1; Ser b2]
  ∧ snapshot w' = [b2; b1]
  ∧ emitted (trace w') = [(ToAll, ResetBoard [b1; b2])]
  ∧ b1 ≠ b2.
Proof.
  repeat split; try (vm_compute; reflexivity).
  intros H. apply (f_equal (λ m : stroke, m !! "x")) in H.
  vm_compute in H. discriminate.
Qed.

(** ** The subscription handler of the channel variant *)

(** C1, as stated, fails: a [draw] envelope delivered twice to a node with
    an empty board leaves two strokes where one delivery leaves one. *)
Lemma C1_duplicate_draw_not_a_noop :
  let s := withUser (VObj {["x" := VNum 1]}) (VStr "ANNA") in
  let once := fst (PubSub.on_message (PubSub.EDraw s) []) in
  let twice := fst (PubSub.on_message (PubSub.EDraw s) once) in
  twice ≠ once ∧ length once = 1%nat ∧ length twice = 2%nat.
Proof. simpl. repeat split. discriminate. Qed.

(** C1, amended: a second delivery of a [draw] envelope appends the
    stroke once more and emits the [draw] event once more; the array
    after two deliveries is one element longer than after one, and the
    same strokes occur in both. *)
Theorem C1_duplicate_draw_appends_again (strokes : list stroke) (data : stroke) :
  let once := PubSub.on_message (PubSub.EDraw data) strokes in
  let twice := PubSub.on_message (PubSub.EDraw data) (fst once) in
  fst twice = fst once ++ [data]
  ∧ length (fst twice) = S (length (fst once))
  ∧ snd twice = snd once
  ∧ snd twice = [(ToAll, DrawEv data)]
  ∧ ∀ s, In s (fst twice) ↔ In s (fst once).
Proof.
  simpl. repeat split.
  - rewrite !length_app. simpl. lia.
  - rewrite !in_app_iff. simpl. tauto.
  - rewrite !in_app_iff. simpl. tauto.
Qed.

(** C2, as stated, fails: with the [clear-user] envelope of ANNA
    delivered before her [draw] envelope the stroke stays on the board,
    with the opposite order it is removed. *)
Lemma C2_clear_before_draw_keeps_stroke :
  let s := withUser (VObj {["x" := VNum 1]}) (VStr "ANNA") in
  let clear := PubSub.EClearUser (VStr "ANNA") in
  let draw_then_clear := fst (PubSub.deliver [PubSub.EDraw s; clear] []) in
  let clear_then_draw := fst (PubSub.deliver [clear; PubSub.EDraw s] []) in
  draw_then_clear = [] ∧ clear_then_draw = [s]
  ∧ draw_then_clear ≠ clear_then_draw.
Proof. repeat split; vm_compute; discriminate. Qed.

(** C2, amended: the order of delivery decides.  For a stroke that the
    filter attributes to [u], a [clear-user] envelope for [u] delivered
    after the [draw] envelope removes it, together with the other strokes
    of [u]; delivered before, it removes those other strokes only and the
    stroke is appended behind them and stays. *)
Theorem C2_clear_wins_only_after_draw (u : value) (s : stroke) (strokes : list stroke)
    (Hown : not_owned_by u s = false) :
  let clear := PubSub.EClearUser u in
  let draw_then_clear := fst (PubSub.deliver [PubSub.EDraw s; clear] strokes) in
  let clear_then_draw := fst (PubSub.deliver [clear; PubSub.EDraw s] strokes) in
  draw_then_clear = List.filter (not_owned_by u) strokes
  ∧ clear_then_draw = List.filter (not_owned_by u) strokes ++ [s]
  ∧ ¬ In s draw_then_clear
  ∧ In s clear_then_draw.
Proof.
  cbn [PubSub.deliver PubSub.on_message fst].
  rewrite List.filter_app. cbn [List.filter]. rewrite Hown, !app_nil_r.
  repeat split.
  - intros Hs. apply filter_In in Hs as [_ Hk]. congruence.
  - apply in_app_iff. right. by left.
Qed.

Lemma C2_clear_wins_only_after_draw_witness :
  let s := withUser (VObj {["x" := VNum 1]}) (VStr "ANNA") in
  let clear := PubSub.EClearUser (VStr "ANNA") in
  fst (PubSub.deliver [PubSub.EDraw s; clear] []) = []
  ∧ fst (PubSub.deliver [clear; PubSub.EDraw s] []) = [] ++ [s]
  ∧ ¬ In s (fst (PubSub.deliver [PubSub.EDraw s; clear] []))
  ∧ In s (fst (PubSub.deliver [clear; PubSub.EDraw s] [])).
Proof.
  apply (C2_clear_wins_only_after_draw (VStr "ANNA")
           (withUser (VObj {["x" := VNum 1]}) (VStr "ANNA")) []).
  vm_compute; reflexivity.
Defined.

(** ** What a per-user clear broadcasts *)

Lemma on_clear_mine_emitted (u : value) (l : list stroke) :
  emitted (trace (snd (on_clear_mine u (healthy (List.map Ser l)))))
  = [(ToAll, ResetBoard (List.filter (not_owned_by u) (rev l)))].
Proof.
  unfold on_clear_mine, mbind, M_bind, healthy.
  rewrite getFullBoardState_read_ok by done. simpl.
  destruct (List.filter (not_owned_by u) (rev l)) as [|r rs]; reflexivity.
Qed.

(** C3, as stated, fails: the envelope the channel variant publishes for
    a [clear-mine] of ANNA is the by-user command, carrying her user id
    and no stroke. *)
Lemma C3_clear_mine_publishes_user_id :
  let '(_, published, _) := pubsub_connection "q7Rk2xYz" (VStr "ANNA") [] ClearMine in
  published = [PubSub.EClearUser (VStr "ANNA")]
  ∧ forallb PubSub.by_user_command published = true.
Proof. split; reflexivity. Qed.

(** C3, amended: in the channel variant [clear-mine] publishes
    [{type: "clear-user", userId}] with the user id of the connection,
    whatever strokes the node holds, and every node filters its own
    array when the envelope arrives; in [server.js] the handler emits one
    [reset-board] event carrying the remaining strokes to all
    connections. *)
Theorem C3_clear_mine_broadcast (sid : string) (u : value) :
  (∀ strokes, pubsub_connection sid u strokes ClearMine
              = (u, [PubSub.EClearUser u], []))
  ∧ PubSub.by_user_command (PubSub.on_clear_mine u) = true
  ∧ (∀ l, emitted (trace (snd (on_clear_mine u (healthy (List.map Ser l)))))
          = [(ToAll, ResetBoard (List.filter (not_owned_by u) (rev l)))]).
Proof.
  repeat split. apply on_clear_mine_emitted.
Qed.

(** ** Attribution *)

Lemma withUser_ignores_claim (d1 d2 u : value) :
  delete "userId" (spread d1) = delete "userId" (spread d2) →
  withUser d1 u = withUser d2 u.
Proof.
  intros H. unfold withUser.
  rewrite <- (insert_delete_eq (spread d1)), <- (insert_delete_eq (spread d2)).
  by rewrite H.
Qed.

(** C5: the stroke built by the [draw] handler carries the [userId] of
    the connection, and two payloads that agree on every property other
    than [userId] give the same stroke: the same entry saved and the same
    event broadcast by [server.js], the same envelope published by the
    channel variant. *)
Theorem C5_server_side_attribution (sid : string) (u d1 d2 : value)
    (Hsame : delete "userId" (spread d1) = delete "userId" (spread d2)) :
  withUser d1 u !! "userId" = Some u
  ∧ withUser d1 u = withUser d2 u
  ∧ (∀ w, on_draw sid u d1 w = on_draw sid u d2 w)
  ∧ PubSub.on_draw u d1 = PubSub.on_draw u d2
  ∧ (∀ d, on_draw sid u d1 (healthy d) =
            (Ok tt, World (Ser (withUser d1 u) :: d) []
                      [DidLPush (Ser (withUser d1 u));
                       DidEmit (ToOthers sid) (DrawEv (withUser d1 u))]))
  ∧ PubSub.on_draw u d1 = PubSub.EDraw (withUser d1 u).
Proof.
  pose proof (withUser_ignores_claim d1 d2 u Hsame) as E.
  split; [apply withUser_userId|]. split; [exact E|]. split; [|split; [|split]].
  - intros w. unfold on_draw. by rewrite E.
  - unfold PubSub.on_draw. by rewrite E.
  - intros d. unfold healthy. by rewrite on_draw_passes.
  - reflexivity.
Qed.

(** A payload claiming to come from ANNA, sent on the connection of
    MALLORY, is saved as the payload without the claim would be. *)
Lemma C5_server_side_attribution_witness :
  let forged := VObj {["x" := VNum 1; "userId" := VStr "ANNA"]} in
  let plain := VObj {["x" := VNum 1]} in
  withUser forged (VStr "MALLORY") !! "userId" = Some (VStr "MALLORY")
  ∧ withUser forged (VStr "MALLORY") = withUser plain (VStr "MALLORY").
Proof.
  intros forged plain.
  destruct (C5_server_side_attribution "q7Rk2xYz" (VStr "MALLORY") forged plain)
    as (Hid & Heq & _).
  - vm_compute; reflexivity.
  - split; [exact Hid | exact Heq].
Defined.

(** ** Fan-out *)

Lemma reaches_all (conns : list string) (c : string) (ev : event) :
  In c conns → reaches conns c (ToAll, ev) = true.
Proof.
  intros Hin. unfold reaches. simpl. apply existsb_exists.
  exists c. split; [done|]. apply String.eqb_refl.
Qed.

Lemma reaches_others (conns : list string) (c : string) (ev : event) :
  reaches conns c (ToOthers c, ev) = false.
Proof.
  unfold reaches. simpl. apply Bool.not_true_is_false. intros H.
  apply existsb_exists in H as (x & Hx & Hxc).
  apply filter_In in Hx as [_ Hne]. rewrite Hxc in Hne. discriminate.
Qed.

(** C6, as stated, fails: in the channel variant the [draw] of the
    connection [c1] comes back to [c1] when the envelope returns from the
    broker, and in [server.js] the [clear-all] of [c1] is emitted to
    [c1]. *)
Lemma C6_origin_receives_its_operation :
  let conns := ["c1"; "c2"] in
  let '(_, _, out) :=
    pubsub_round true "c1" (VStr "ANNA") [] (Draw (VObj {["x" := VNum 1]})) in
  existsb (reaches conns "c1") out = true
  ∧ existsb (reaches conns "c1")
      (emitted (trace (snd (on_clear_all (healthy []))))) = true.
Proof. split; vm_compute; reflexivity. Qed.

(** C6, amended: in [server.js] a [draw] is emitted to every connection
    but the one it came from, whereas [clear-all] and [clear-mine] are
    emitted to all connections, the originating one included; in the
    channel variant every operation, [draw] included, is emitted to all
    connections of the node once its envelope is delivered. *)
Theorem C6_echo_only_draw_excluded (conns : list string) (sid : string)
    (u data : value) (Hin : In sid conns) :
  (∀ d fs, forallb (λ e, negb (reaches conns sid e))
             (emitted (trace (snd (on_draw sid u data (World d fs []))))) = true)
  ∧ (∀ d, emitted (trace (snd (on_draw sid u data (healthy d))))
          = [(ToOthers sid, DrawEv (withUser data u))])
  ∧ (∀ d, forallb (reaches conns sid)
            (emitted (trace (snd (on_clear_all (healthy d))))) = true
          ∧ emitted (trace (snd (on_clear_all (healthy d)))) = [(ToAll, ClearAllEv)])
  ∧ (∀ l, forallb (reaches conns sid)
            (emitted (trace (snd (on_clear_mine u (healthy (List.map Ser l)))))) = true)
  ∧ (∀ strokes r, mutating r = true →
       let '(_, _, out) := pubsub_round true sid u strokes r in
       out ≠ [] ∧ forallb (reaches conns sid) out = true).
Proof.
  split; [|split; [|split; [|split]]].
  - intros d fs. destruct (passes fs) eqn:Hp.
    + rewrite on_draw_passes by done. simpl. by rewrite reaches_others.
    + rewrite on_draw_fails by done. reflexivity.
  - intros d. unfold healthy. by rewrite on_draw_passes.
  - intros d. simpl. by rewrite reaches_all.
  - intros l. rewrite on_clear_mine_emitted. simpl. by rewrite reaches_all.
  - intros strokes r Hr. destruct r; try discriminate; simpl;
      (split; [discriminate|]); by rewrite reaches_all.
Qed.

Lemma C6_echo_only_draw_excluded_witness :
  In "c1" ["c1"; "c2"]
  ∧ ∀ d, emitted (trace (snd (on_draw "c1" (VStr "ANNA") (VObj {["x" := VNum 1]}) (healthy d))))
         = [(ToOthers "c1", DrawEv (withUser (VObj {["x" := VNum 1]}) (VStr "ANNA")))].
Proof.
  assert (Hin : In "c1" ["c1"; "c2"]) by (simpl; auto).
  split; [exact Hin|].
  destruct (C6_echo_only_draw_excluded ["c1"; "c2"] "c1" (VStr "ANNA")
              (VObj {["x" := VNum 1]}) Hin) as (_ & Hd & _).
  exact Hd.
Defined.

(** ** Connections that have not registered *)

(** C7, as stated, fails: a [draw] on a connection that never registered
    is saved in the Redis list and broadcast, and in the channel variant
    it is published. *)
Lemma C7_unregistered_draw_is_applied :
  let data := VObj {["x" := VNum 1]} in
  let w' := snd (persistent_connection "c1" unregistered (Draw data) (healthy [])) in
  db w' ≠ db (healthy [])
  ∧ emitted (trace w') ≠ []
  ∧ snd (fst (pubsub_connection "c1" unregistered [] (Draw data))) ≠ [].
Proof. repeat split; vm_compute; discriminate. Qed.

(** C7, amended: the handlers do not look at the registration state.  On
    a connection whose [userId] is still [null], a [draw] is stamped with
    [userId: null], saved and broadcast; [clear-all] empties the list and
    is broadcast; [clear-mine] removes the strokes whose [userId] is
    [null] and broadcasts the rest; in the channel variant the three
    events publish their envelopes, with [null] as user id. *)
Theorem C7_no_registration_guard (sid : string) (data : value) (l : list stroke) :
  let w := healthy (List.map Ser l) in
  unregistered = VNull
  ∧ persistent_connection sid unregistered (Draw data) w =
      (Ok VNull, World (Ser (withUser data VNull) :: List.map Ser l) []
                   [DidLPush (Ser (withUser data VNull));
                    DidEmit (ToOthers sid) (DrawEv (withUser data VNull))])
  ∧ persistent_connection sid unregistered ClearAll w =
      (Ok VNull, World [] [] [DidDel; DidEmit ToAll ClearAllEv])
  ∧ fst (persistent_connection sid unregistered ClearMine w) = Ok VNull
  ∧ db (snd (persistent_connection sid unregistered ClearMine w)) =
      List.map Ser (List.filter (not_owned_by VNull) (rev l))
  ∧ emitted (trace (snd (persistent_connection sid unregistered ClearMine w))) =
      [(ToAll, ResetBoard (List.filter (not_owned_by VNull) (rev l)))]
  ∧ (∀ strokes,
       pubsub_connection sid unregistered strokes (Draw data)
         = (VNull, [PubSub.EDraw (withUser data VNull)], [])
       ∧ pubsub_connection sid unregistered strokes ClearAll
         = (VNull, [PubSub.EClearAll], [])
       ∧ pubsub_connection sid unregistered strokes ClearMine
         = (VNull, [PubSub.EClearUser VNull], [])).
Proof.
  cbv zeta. split; [reflexivity|]. split; [|split].
  - unfold persistent_connection, mbind, M_bind, healthy.
    by rewrite on_draw_passes.
  - reflexivity.
  - unfold persistent_connection, mbind, M_bind, unregistered.
    pose proof (on_clear_mine_emitted VNull l) as Hem.
    destruct (on_clear_mine_healthy VNull l) as [tr E].
    rewrite E in Hem |- *. simpl in Hem |- *.
    split; [done|]. split; [done|]. split; [exact Hem|].
    intros strokes. repeat split.
Qed.

(** ** Saving, publishing and broadcasting a stroke *)

(** C8, as stated, fails: in the channel variant the [draw] handler does
    not touch [strokes]; the stroke enters the array when the envelope
    comes back from the broker, and with the publish failing it never
    does. *)
Lemma C8_publish_failure_loses_stroke :
  let data := VObj {["x" := VNum 1]} in
  let '(_, strokes', out) := pubsub_round false "c1" (VStr "ANNA") [] (Draw data) in
  strokes' = [] ∧ out = [] ∧ ¬ In (withUser data (VStr "ANNA")) strokes'.
Proof. repeat split. intros []. Qed.

(** C8, amended: [server.js] pushes the stroke to the Redis list first
    and emits the broadcast afterwards, so the list holds the stroke
    whatever becomes of the broadcast, and a failed push throws before
    anything is broadcast.  The channel variant only publishes in the
    [draw] handler: its [strokes] array gets the stroke when the
    envelope is delivered, and keeps its old value when the publish
    fails. *)
Theorem C8_save_then_broadcast (sid : string) (u data : value) :
  (∀ d tr, on_draw sid u data (World d [] tr) =
             (Ok tt, World (Ser (withUser data u) :: d) []
                       (tr ++ [DidLPush (Ser (withUser data u));
                               DidEmit (ToOthers sid) (DrawEv (withUser data u))])))
  ∧ (∀ d fs tr, on_draw sid u data (World d (false :: fs) tr) =
                  (Ok tt, World (Ser (withUser data u) :: d) fs
                            (tr ++ [DidLPush (Ser (withUser data u));
                                    DidEmit (ToOthers sid) (DrawEv (withUser data u))])))
  ∧ (∀ d fs tr, on_draw sid u data (World d (true :: fs) tr) =
                  (Thrown, World d fs tr))
  ∧ (∀ strokes, pubsub_connection sid u strokes (Draw data) =
                  (u, [PubSub.EDraw (withUser data u)], []))
  ∧ (∀ strokes, pubsub_round true sid u strokes (Draw data) =
                  (u, strokes ++ [withUser data u],
                   [(ToAll, DrawEv (withUser data u))]))
  ∧ (∀ strokes, pubsub_round false sid u strokes (Draw data) = (u, strokes, [])).
Proof.
  split; [|split; [|split]].
  - intros d tr. by rewrite on_draw_passes.
  - intros d fs tr. by rewrite on_draw_passes.
  - intros d fs tr. by rewrite on_draw_fails.
  - repeat split.
Qed.

(** ** A failed read during a per-user clear *)

(** [getFullBoardState] answers a failed read with the empty list, and
    the handler goes on to delete the key: the strokes of every user are
    lost, and [reset-board] carries an empty board. *)
Lemma clear_mine_read_failure_wipes (u : value) (d : list entry) :
  on_clear_mine u (World d [true] []) =
    (Ok tt, World [] [] [DidDel; DidEmit ToAll (ResetBoard [])]).
Proof. reflexivity. Qed.

(** * Further properties of the two servers *)

(** ** The snapshot *)

Lemma parse_all_length (es : list entry) (w w' : world) (ss : list stroke) :
  parse_all es w = (Ok ss, w') → length ss = length es.
Proof.
  revert ss w'. induction es as [|e es IH]; intros ss w' E; simpl in E.
  - by injection E as <- _.
  - destruct e as [s|t]; simpl in E; [|discriminate].
    unfold mbind, M_bind in E.
    destruct (parse_all es w) as [[ss0|] w2] eqn:E0; [|discriminate].
    injection E as <- _. simpl. f_equal. by eapply IH.
Qed.

(** X1: [getFullBoardState] never throws, whatever the list holds and
    whether or not Redis answers: it issues one command, leaves the list
    as it is, and every stroke it returns is the parse of an entry of the
    list. *)
Theorem X1_snapshot_never_throws (w : world) :
  ∃ ss tr,
    getFullBoardState w = (Ok ss, World (db w) (tail (faults w)) tr)
    ∧ (∀ s, In s ss → In (Ser s) (db w))
    ∧ (length ss ≤ length (db w))%nat.
Proof.
  unfold getFullBoardState, try_catch, mbind, M_bind, lRange.
  destruct (passes (faults w)) eqn:Hp.
  - rewrite command_passes by done. simpl.
    set (w1 := World _ _ _).
    pose proof (parse_all_world (rev (db w)) w1) as Hw.
    destruct (parse_all (rev (db w)) w1) as [[ss|] w2] eqn:E; simpl in Hw; subst w2.
    + exists ss, (trace w ++ [DidLRange]). split; [done|]. split.
      * intros s Hs. apply in_rev. eapply parse_all_In; eauto.
      * rewrite <- (length_rev (db w)). apply parse_all_length in E. lia.
    + exists [], (trace w ++ [DidLRange]). split; [done|]. split; [intros s []|simpl; lia].
  - rewrite command_fails by done. simpl.
    exists [], (trace w). split; [done|]. split; [intros s []|simpl; lia].
Qed.

Lemma parse_all_Junk (d1 d2 : list entry) (t : string) (w : world) :
  parse_all (d1 ++ Junk t :: d2) w = (Thrown, w).
Proof.
  induction d1 as [|e d1 IH]; simpl; [done|].
  destruct e as [s|t']; simpl; [|done].
  unfold mbind, M_bind. by rewrite IH.
Qed.

Lemma getFullBoardState_Junk (d1 d2 : list entry) (t : string) (fs : list bool)
    (tr : list action) :
  ∃ tr', getFullBoardState (World (d1 ++ Junk t :: d2) fs tr) =
           (Ok [], World (d1 ++ Junk t :: d2) (tail fs) tr').
Proof.
  unfold getFullBoardState, try_catch, mbind, M_bind, lRange.
  destruct (passes fs) eqn:Hp.
  - rewrite command_passes by done. simpl.
    rewrite rev_app_distr. simpl. rewrite <- app_assoc. simpl.
    rewrite parse_all_Junk. by eexists.
  - rewrite command_fails by done. simpl. by eexists.
Qed.

(** X2: one entry of the list that does not parse empties the whole
    snapshot: the strokes stored before and after it are not returned
    either, whatever Redis answers. *)
Theorem X2_corrupt_entry_empties_snapshot (d1 d2 : list entry) (t : string)
    (fs : list bool) (tr : list action) :
  snapshot (World (d1 ++ Junk t :: d2) fs tr) = []
  ∧ ∀ sid data,
      emitted (trace (snd (on_register sid data (World (d1 ++ Junk t :: d2) fs [])))) =
        [(ToSocket sid, UserInfo (register_userId sid data));
         (ToSocket sid, InitBoard [])].
Proof.
  split.
  - unfold snapshot. by destruct (getFullBoardState_Junk d1 d2 t fs tr) as [tr' ->].
  - intros sid data. unfold on_register, mbind, M_bind, emit. simpl.
    destruct (getFullBoardState_Junk d1 d2 t fs
                [DidEmit (ToSocket sid) (UserInfo (register_userId sid data))])
      as [tr' E].
    rewrite E. simpl.
    assert (Htr : emitted tr' = [(ToSocket sid, UserInfo (register_userId sid data))]).
    { revert E. unfold getFullBoardState, try_catch, mbind, M_bind, lRange.
      destruct (passes fs) eqn:Hp.
      - rewrite command_passes by done. simpl.
        rewrite rev_app_distr. simpl. rewrite <- app_assoc. simpl.
        rewrite parse_all_Junk. by intros [= <-].
      - rewrite command_fails by done. simpl. by intros [= <-]. }
    unfold emitted in *. rewrite omap_app, Htr. reflexivity.
Qed.

(** ** The per-user clear under failures *)

Lemma getFullBoardState_trace (w : world) :
  ∃ ss, getFullBoardState w =
          (Ok ss, World (db w) (tail (faults w))
                    (trace w ++ if passes (faults w) then [DidLRange] else [])).
Proof.
  unfold getFullBoardState, try_catch, mbind, M_bind, lRange.
  destruct (passes (faults w)) eqn:Hp.
  - rewrite command_passes by done. simpl.
    set (w1 := World _ _ _).
    pose proof (parse_all_world (rev (db w)) w1) as Hw.
    destruct (parse_all (rev (db w)) w1) as [[ss|] w2]; simpl in Hw; subst w2;
      by eexists.
  - rewrite command_fails by done. simpl. rewrite app_nil_r. by eexists.
Qed.

Lemma on_clear_mine_ok (u : value) (l : list stroke) (tr : list action) :
  ∃ tr', on_clear_mine u (World (List.map Ser l) [] tr) =
           (Ok tt, World (List.map Ser (List.filter (not_owned_by u) (rev l))) [] tr').
Proof.
  unfold on_clear_mine, mbind, M_bind.
  rewrite getFullBoardState_read_ok by done. simpl.
  destruct (List.filter (not_owned_by u) (rev l)) as [|r rs]; simpl; by eexists.
Qed.

(** X3: when the handler of [clear-mine] cannot read the list, because
    [lRange] fails or because an entry does not parse, it takes the board
    to be empty and, [del] succeeding, deletes the key: the strokes of
    all users are gone and [reset-board] carries no stroke. *)
Theorem X3_clear_mine_unreadable_list_wipes (u : value) (d d1 d2 : list entry)
    (t : string) (fs : list bool) (tr : list action) :
  on_clear_mine u (World d (true :: false :: fs) tr) =
    (Ok tt, World [] fs (tr ++ [DidDel; DidEmit ToAll (ResetBoard [])]))
  ∧ on_clear_mine u (World (d1 ++ Junk t :: d2) (false :: false :: fs) tr) =
      (Ok tt, World [] fs (tr ++ [DidLRange; DidDel; DidEmit ToAll (ResetBoard [])]))
  ∧ on_clear_mine u (World (d1 ++ Junk t :: d2) [] tr) =
      (Ok tt, World [] [] (tr ++ [DidLRange; DidDel; DidEmit ToAll (ResetBoard [])])).
Proof.
  split; [|split].
  - unfold on_clear_mine, getFullBoardState, try_catch, mbind, M_bind, lRange,
      del, command, emit, mret, M_ret.
    simpl. by rewrite <- !app_assoc.
  - unfold on_clear_mine, getFullBoardState, try_catch, mbind, M_bind, lRange,
      del, command, emit, mret, M_ret.
    simpl. rewrite rev_app_distr. simpl. rewrite <- app_assoc. simpl.
    rewrite parse_all_Junk. simpl. by rewrite <- !app_assoc.
  - unfold on_clear_mine, getFullBoardState, try_catch, mbind, M_bind, lRange,
      del, command, emit, mret, M_ret.
    simpl. rewrite rev_app_distr. simpl. rewrite <- app_assoc. simpl.
    rewrite parse_all_Junk. simpl. by rewrite <- !app_assoc.
Qed.

(** X4: the rewrite of the list by [clear-mine] is not atomic.  When
    [del] succeeds and the [rPush] of the remaining strokes fails, the
    handler throws with the key deleted: the strokes of the other users
    are lost and no [reset-board] is emitted.  When [del] itself fails
    the list is untouched. *)
Theorem X4_clear_mine_not_atomic (u : value) (l : list stroke) (fs : list bool)
    (tr : list action)
    (Hkeep : List.filter (not_owned_by u) (rev l) ≠ []) :
  on_clear_mine u (World (List.map Ser l) (false :: false :: true :: fs) tr) =
    (Thrown, World [] fs (tr ++ [DidLRange; DidDel]))
  ∧ on_clear_mine u (World (List.map Ser l) (false :: true :: fs) tr) =
      (Thrown, World (List.map Ser l) fs (tr ++ [DidLRange])).
Proof.
  split.
  - unfold on_clear_mine, mbind, M_bind.
    rewrite getFullBoardState_read_ok by done. simpl.
    destruct (List.filter (not_owned_by u) (rev l)) as [|r rs]; [done|].
    simpl. by rewrite <- app_assoc.
  - unfold on_clear_mine, mbind, M_bind.
    by rewrite getFullBoardState_read_ok.
Qed.

Lemma X4_clear_mine_not_atomic_witness :
  let b := withUser (VObj {["x" := VNum 1]}) (VStr "BOB") in
  on_clear_mine (VStr "ANNA") (World [Ser b] [false; false; true] []) =
    (Thrown, World [] [] [DidLRange; DidDel]).
Proof.
  intros b.
  destruct (X4_clear_mine_not_atomic (VStr "ANNA") [b] [] []) as [H _].
  - vm_compute. discriminate.
  - exact H.
Defined.

(** X5: [clear-mine] never calls [rPush] with an empty array: in every
    run, whatever the list holds and whichever commands fail, each
    [rPush] the handler issues carries at least one entry, and carries
    texts of strokes only. *)
Theorem X5_rpush_never_empty (u : value) (w : world) (es : list entry) :
  In (DidRPush es) (trace (snd (on_clear_mine u w))) →
  In (DidRPush es) (trace w)
  ∨ (es ≠ [] ∧ ∀ e, In e es → ∃ s, e = Ser s ∧ not_owned_by u s = true).
Proof.
  unfold on_clear_mine, mbind, M_bind.
  destruct (getFullBoardState_trace w) as [ss ->].
  remember (trace w ++ if passes (faults w) then [DidLRange] else []) as tr0 eqn:Htr0.
  assert (Hread : In (DidRPush es) tr0 → In (DidRPush es) (trace w)).
  { subst tr0. intros Ha. apply in_app_iff in Ha as [Ha|Ha]; [done|].
    destruct (passes (faults w)); simpl in Ha; [|done].
    by destruct Ha as [Ha|[]]. }
  clear Htr0.
  set (w1 := World _ _ _).
  unfold del. destruct (passes (faults w1)) eqn:Hp1.
  2:{ rewrite command_fails by done. simpl. intros H. left. by apply Hread. }
  rewrite command_passes by done. simpl.
  destruct (List.filter (not_owned_by u) ss) as [|r rs] eqn:Hrem; simpl.
  - unfold emit. simpl. rewrite <- !app_assoc. intros H.
    apply in_app_iff in H as [H|H]; [left; by apply Hread|].
    simpl in H. by destruct H as [H|[H|[]]].
  - unfold rPush. set (w2 := World _ _ _).
    destruct (passes (faults w2)) eqn:Hp2.
    + rewrite command_passes by done. simpl. unfold emit. simpl.
      rewrite <- !app_assoc. intros H.
      apply in_app_iff in H as [H|H]; [left; by apply Hread|].
      simpl in H. destruct H as [H|[H|[H|[]]]]; try done.
      injection H as <-. right. split; [done|].
      intros e He.
      change (In e (List.map stringify (r :: rs))) in He. rewrite <- Hrem in He.
      apply in_map_iff in He as (s & <- & Hs).
      apply filter_In in Hs as [_ Hk]. by exists s.
    + rewrite command_fails by done. simpl. intros H.
      apply in_app_iff in H as [H|H]; [left; by apply Hread|].
      simpl in H. by destruct H as [H|[]].
Qed.

Lemma X5_rpush_never_empty_witness :
  let b := withUser (VObj {["x" := VNum 1]}) (VStr "BOB") in
  In (DidRPush [Ser b]) [] ∨ ([Ser b] ≠ [] ∧ ∀ e, In e [Ser b] →
     ∃ s, e = Ser s ∧ not_owned_by (VStr "ANNA") s = true).
Proof.
  intros b.
  apply (X5_rpush_never_empty (VStr "ANNA") (healthy [Ser b]) [Ser b]).
  vm_compute. right. right. left. reflexivity.
Defined.

(** ** The per-user clear when Redis answers *)

(** X6: a second [clear-mine] of the same user undoes the reordering of
    the first: after two of them the list holds the remaining strokes in
    their original order, latest first, and the snapshot is the filtered
    snapshot of the start. *)
Theorem X6_clear_mine_twice_restores_order (u : value) (l : list stroke) :
  let w0 := healthy (List.map Ser l) in
  let w1 := snd (on_clear_mine u w0) in
  let w2 := snd (on_clear_mine u w1) in
  fst (on_clear_mine u w1) = Ok tt
  ∧ db w2 = List.map Ser (List.filter (not_owned_by u) l)
  ∧ snapshot w2 = List.filter (not_owned_by u) (snapshot w0).
Proof.
  cbv zeta. unfold healthy.
  destruct (on_clear_mine_ok u l []) as [tr1 ->]. simpl.
  destruct (on_clear_mine_ok u (List.filter (not_owned_by u) (rev l)) tr1) as [tr2 ->].
  simpl.
  assert (E : List.filter (not_owned_by u) (rev (List.filter (not_owned_by u) (rev l)))
              = List.filter (not_owned_by u) l).
  { rewrite <- filter_rev, rev_involutive.
    induction l as [|s l IH]; simpl; [done|].
    destruct (not_owned_by u s) eqn:Hs; simpl; rewrite ?Hs, IH; done. }
  rewrite E. split; [done|]. split; [done|].
  unfold snapshot. rewrite !getFullBoardState_read_ok by done.
  by rewrite filter_rev.
Qed.

(** X7: with Redis answering, [clear-mine] keeps the strokes of the other
    users with their multiplicities: the list afterwards is a
    rearrangement of the entries of the strokes the filter keeps, and it
    holds no text that does not parse. *)
Theorem X7_clear_mine_keeps_others (u : value) (l : list stroke) :
  let w' := snd (on_clear_mine u (healthy (List.map Ser l))) in
  fst (on_clear_mine u (healthy (List.map Ser l))) = Ok tt
  ∧ Permutation (db w') (List.map Ser (List.filter (not_owned_by u) l))
  ∧ length (db w') = length (List.filter (not_owned_by u) l)
  ∧ ∀ s, In s l → not_owned_by u s = true → In (Ser s) (db w').
Proof.
  cbv zeta. unfold healthy.
  destruct (on_clear_mine_ok u l []) as [tr1 ->]. simpl.
  split; [done|]. rewrite filter_rev, map_rev. split; [|split].
  - symmetry. apply Permutation_rev.
  - by rewrite length_rev, !length_map.
  - intros s Hin Hk. apply in_rev. rewrite rev_involutive.
    apply in_map, filter_In. by split.
Qed.

(** ** Drawing and clearing the whole board *)

Lemma persistent_draws (sid : string) (u : value) (ps : list value)
    (d : list entry) (tr : list action) :
  ∃ tr', persistent_session sid u (List.map Draw ps) (World d [] tr) =
           (Ok u, World (rev (List.map (λ p, Ser (withUser p u)) ps) ++ d) [] tr').
Proof.
  revert d tr. induction ps as [|p ps IH]; intros d tr; simpl.
  - by exists tr.
  - unfold mbind, M_bind. rewrite on_draw_passes by done. simpl.
    destruct (IH (Ser (withUser p u) :: d)
                 (tr ++ [DidLPush (Ser (withUser p u));
                         DidEmit (ToOthers sid) (DrawEv (withUser p u))]))
      as [tr' ->].
    exists tr'. by rewrite <- app_assoc.
Qed.

(** X8: [clear-all] makes the board usable again whatever the list held,
    texts that do not parse included: after it and a sequence of [draw]
    events of the connection, the snapshot is exactly the strokes drawn
    since, in drawing order. *)
Theorem X8_clear_all_then_draws (sid : string) (u : value) (ps : list value)
    (d : list entry) :
  let r := persistent_session sid u (ClearAll :: List.map Draw ps) (healthy d) in
  fst r = Ok u
  ∧ snapshot (snd r) = List.map (λ p, withUser p u) ps.
Proof.
  cbv zeta. unfold healthy.
  assert (E : persistent_session sid u (ClearAll :: List.map Draw ps) (World d [] [])
              = persistent_session sid u (List.map Draw ps)
                  (World [] [] [DidDel; DidEmit ToAll ClearAllEv])) by reflexivity.
  rewrite E.
  destruct (persistent_draws sid u ps [] [DidDel; DidEmit ToAll ClearAllEv]) as [tr' ->].
  simpl. split; [done|].
  rewrite app_nil_r.
  replace (List.map (λ p, Ser (withUser p u)) ps)
    with (List.map Ser (List.map (λ p, withUser p u) ps)) by by rewrite map_map.
  rewrite <- map_rev. unfold snapshot.
  rewrite getFullBoardState_read_ok by done. apply rev_involutive.
Qed.

(** X9: a saved [draw] adds exactly one stroke at the end of the
    snapshot, and that stroke has every property of the payload other
    than [userId] unchanged. *)
Theorem X9_draw_appends_to_snapshot (sid : string) (u data : value) (l : list stroke) :
  let w := healthy (List.map Ser l) in
  snapshot (snd (on_draw sid u data w)) = snapshot w ++ [withUser data u]
  ∧ ∀ k, k ≠ "userId" → withUser data u !! k = spread data !! k.
Proof.
  cbv zeta. unfold healthy. rewrite on_draw_passes by done. simpl. split.
  - change (Ser (withUser data u) :: List.map Ser l)
      with (List.map Ser (withUser data u :: l)).
    unfold snapshot. by rewrite !getFullBoardState_read_ok.
  - intros k Hk. unfold withUser. by rewrite lookup_insert_ne.
Qed.

(** ** The two variants side by side *)

Lemma pubsub_round_draw (sid : string) (u data : value) (l : list stroke) :
  pubsub_round true sid u l (Draw data) =
    (u, l ++ [withUser data u], [(ToAll, DrawEv (withUser data u))]).
Proof. reflexivity. Qed.

Lemma pubsub_round_clear_all (sid : string) (u : value) (l : list stroke) :
  pubsub_round true sid u l ClearAll = (u, [], [(ToAll, ClearAllEv)]).
Proof. reflexivity. Qed.

Lemma sessions_agree (sid : string) (u : value) (rs : list request) :
  forallb draw_or_clear_all rs = true →
  ∀ l tr, ∃ tr',
    persistent_session sid u rs (World (List.map Ser (rev l)) [] tr) =
      (Ok u, World (List.map Ser (rev (snd (fst (pubsub_session true sid u l rs)))))
               [] tr').
Proof.
  induction rs as [|r rs IH]; intros Hrs l tr.
  - simpl. by exists tr.
  - simpl in Hrs. apply andb_prop in Hrs as [Hr Hrs].
    destruct r as [reg|data| |]; try discriminate.
    + cbn [persistent_session persistent_connection pubsub_session].
      rewrite pubsub_round_draw. cbn [publish_rejected negb andb].
      unfold mbind, M_bind. rewrite on_draw_passes by done. simpl.
      destruct (IH Hrs (l ++ [withUser data u])
                  (tr ++ [DidLPush (Ser (withUser data u));
                          DidEmit (ToOthers sid) (DrawEv (withUser data u))]))
        as [tr' E].
      rewrite rev_unit in E. simpl in E. unfold mbind, M_bind in E. rewrite E.
      exists tr'.
      by destruct (pubsub_session true sid u (l ++ [withUser data u]) rs) as [[u2 s2] o2].
    + cbn [persistent_session persistent_connection pubsub_session].
      rewrite pubsub_round_clear_all. cbn [publish_rejected negb andb].
      destruct (IH Hrs [] (tr ++ [DidDel; DidEmit ToAll ClearAllEv])) as [tr' E].
      exists tr'.
      assert (E1 : (Persistent.on_clear_all ≫= λ _ : (), mret u)
                     (World (List.map Ser (rev l)) [] tr)
                   = (Ok u, World [] [] (tr ++ [DidDel; DidEmit ToAll ClearAllEv]))).
      { unfold on_clear_all, mbind, M_bind, del, command, emit, mret, M_ret. simpl.
        by rewrite <- app_assoc. }
      unfold mbind at 1. unfold M_bind at 1. rewrite E1.
      simpl in E. rewrite E.
      by destruct (pubsub_session true sid u [] rs) as [[u2 s2] o2].
Qed.

(** X19: for a sequence of [draw] and [clear-all] events of a connection,
    with Redis and the broker answering, the two variants agree: the
    snapshot [server.js] would send afterwards is the [strokes] array of
    a node of the channel variant that started from the same board. *)
Theorem X19_variants_agree_without_clear_mine (sid : string) (u : value)
    (rs : list request) (l : list stroke)
    (Hrs : forallb draw_or_clear_all rs = true) :
  let r := persistent_session sid u rs (healthy (List.map Ser (rev l))) in
  fst r = Ok u
  ∧ snapshot (snd r) = snd (fst (pubsub_session true sid u l rs)).
Proof.
  cbv zeta. unfold healthy.
  destruct (sessions_agree sid u rs Hrs l []) as [tr' ->]. simpl.
  split; [done|]. unfold snapshot.
  rewrite getFullBoardState_read_ok by done. apply rev_involutive.
Qed.

Lemma X19_variants_agree_without_clear_mine_witness :
  let rs := [Draw (VObj {["x" := VNum 1]}); ClearAll; Draw (VObj {["x" := VNum 2]})] in
  snapshot (snd (persistent_session "c1" (VStr "ANNA") rs (healthy [])))
  = snd (fst (pubsub_session true "c1" (VStr "ANNA") [] rs)).
Proof.
  intros rs.
  destruct (X19_variants_agree_without_clear_mine "c1" (VStr "ANNA") rs [])
    as [_ H].
  - reflexivity.
  - exact H.
Defined.

(** X20: with a [clear-mine] the two variants part.  From the same
    board, a node of the channel variant keeps the remaining strokes in
    drawing order, and the snapshot of [server.js] after the handler has
    them in the opposite order. *)
Theorem X20_variants_differ_after_clear_mine (l : list stroke) (u : value) :
  let w := snd (on_clear_mine u (healthy (List.map Ser (rev l)))) in
  let node := fst (PubSub.on_message (PubSub.EClearUser u) l) in
  snapshot w = rev node
  ∧ node = List.filter (not_owned_by u) l.
Proof.
  cbv zeta. split; [|reflexivity].
  rewrite clear_mine_snapshot_reversed, snapshot_healthy. by rewrite rev_involutive.
Qed.

(** ** Identities *)

Lemma upper_ascii_not_lower (c : ascii) : lower_ascii (upper_ascii c) = false.
Proof. destruct c as [[] [] [] [] [] [] [] []]; reflexivity. Qed.

Lemma toUpperCase_length (s : string) : String.length (toUpperCase s) = String.length s.
Proof. induction s as [|c s IH]; simpl; [done|]. by rewrite IH. Qed.

Lemma substring_0_length (n : nat) (s : string) :
  String.length (substring 0 n s) = Nat.min n (String.length s).
Proof.
  revert s. induction n as [|n IH]; intros s.
  - by destruct s.
  - destruct s as [|c s]; simpl; [done|]. by rewrite IH.
Qed.

(** X11: without a usable declared id ([userId] missing, [null], [""],
    [0] or [false]) the user id of a connection is derived from the
    socket id: its first five characters, or all of them when there are
    fewer, with no lower-case ASCII letter left.  Socket ids that agree
    on these characters up to letter case get the same user id. *)
Theorem X11_derived_user_id (sid : string) (data : value)
    (Hfalsy : ∀ v, get "userId" data = Some v → truthy v = false) :
  ∃ d, register_userId sid data = VStr d
       ∧ String.length d = Nat.min 5 (String.length sid)
       ∧ (∀ c, In c (list_ascii_of_string d) → lower_ascii c = false)
       ∧ ∀ sid', toUpperCase (substring 0 5 sid') = toUpperCase (substring 0 5 sid) →
                 register_userId sid' data = VStr d.
Proof.
  exists (toUpperCase (substring 0 5 sid)).
  assert (E : ∀ s, register_userId s data = VStr (toUpperCase (substring 0 5 s))).
  { intros s. unfold register_userId.
    destruct (get "userId" data) as [v|]; [|done]. by rewrite (Hfalsy v). }
  split; [apply E|]. split; [|split].
  - by rewrite toUpperCase_length, substring_0_length.
  - generalize (substring 0 5 sid) as s. intros s c.
    induction s as [|a s IH]; simpl; [done|].
    intros [<-|Hc]; [apply upper_ascii_not_lower | by apply IH].
  - intros sid' H. by rewrite E, H.
Qed.

Lemma X11_derived_user_id_witness :
  ∃ d, register_userId "q7rk2xYzAbCd" (VObj {["userId" := VStr ""]}) = VStr d
       ∧ String.length d = 5%nat
       ∧ register_userId "Q7RK2-other" (VObj {["userId" := VStr ""]}) = VStr d.
Proof.
  destruct (X11_derived_user_id "q7rk2xYzAbCd" (VObj {["userId" := VStr ""]}))
    as (d & Hd & Hlen & _ & Hsame).
  - intros v Hv. vm_compute in Hv. injection Hv as <-. reflexivity.
  - exists d. split; [exact Hd|]. split; [exact Hlen|].
    apply Hsame. reflexivity.
Defined.

(** X10: a declared [userId] that is truthy is taken as it is, whatever
    its type, and after [register] the user id of a connection with a
    non-empty socket id is never [null] again. *)
Theorem X10_register_sets_identity (sid : string) (data : value)
    (Hsid : sid ≠ "") :
  truthy (register_userId sid data) = true
  ∧ register_userId sid data ≠ unregistered
  ∧ (∀ v, get "userId" data = Some v → truthy v = true →
          register_userId sid data = v)
  ∧ ∀ own d fs, fst (on_register sid data (World d fs [])) = Ok (register_userId sid data)
                ∧ fst (pubsub_connection sid own [] (Register data))
                  = (register_userId sid data, []).
Proof.
  assert (Ht : truthy (register_userId sid data) = true)
    by by apply register_userId_truthy.
  split; [exact Ht|]. split; [|split].
  - intros E. rewrite E in Ht. discriminate.
  - intros v Hv Htv. unfold register_userId. by rewrite Hv, Htv.
  - intros own d fs. split; [|reflexivity].
    unfold on_register, mbind, M_bind, emit. simpl.
    destruct (getFullBoardState_trace
                (World d fs [DidEmit (ToSocket sid) (UserInfo (register_userId sid data))]))
      as [ss ->].
    reflexivity.
Qed.

Lemma X10_register_sets_identity_witness :
  truthy (register_userId "q7rk2xYzAbCd" VNull) = true.
Proof.
  apply (X10_register_sets_identity "q7rk2xYzAbCd" VNull). discriminate.
Defined.

(** X12: [register] is accepted on a connection that already has a user
    id and replaces it, and the strokes saved under the old id are no
    longer the connection's: a stroke drawn before the (re-)registration
    survives the [clear-mine] that follows it.  This includes the stroke
    drawn while the connection had not registered at all. *)
Theorem X12_reregistration_orphans_strokes (sid : string) (u1 data reg : value)
    (Hne : strict_eq u1 (register_userId sid reg) = false) :
  let r := persistent_session sid u1 [Draw data; Register reg; ClearMine] (healthy []) in
  fst r = Ok (register_userId sid reg)
  ∧ db (snd r) = [Ser (withUser data u1)]
  ∧ snapshot (snd r) = [withUser data u1].
Proof.
  cbv zeta.
  set (s1 := withUser data u1). set (u2 := register_userId sid reg) in *.
  assert (Hk : not_owned_by u2 s1 = true).
  { unfold not_owned_by, s1. rewrite withUser_userId. by rewrite Hne. }
  assert (E : ∃ tr, persistent_session sid u1 [Draw data; Register reg; ClearMine] (healthy [])
                    = (Ok u2, World [Ser s1] [] tr)).
  { cbn [persistent_session persistent_connection].
    unfold on_draw, on_register, on_clear_mine, getFullBoardState, try_catch,
      lRange, lPush, rPush, del, command, emit, mbind, M_bind, mret, M_ret, healthy.
    simpl. fold s1 u2. rewrite Hk. simpl. by eexists. }
  destruct E as [tr ->]. simpl. split; [done|]. split; [done|].
  change [Ser s1] with (List.map Ser [s1]).
  unfold snapshot. by rewrite getFullBoardState_read_ok.
Qed.

Lemma X12_reregistration_orphans_strokes_witness :
  let data := VObj {["x" := VNum 1]} in
  db (snd (persistent_session "q7rk2xYzAbCd" unregistered
             [Draw data; Register VNull; ClearMine] (healthy [])))
  = [Ser (withUser data unregistered)].
Proof.
  intros data.
  destruct (X12_reregistration_orphans_strokes "q7rk2xYzAbCd" unregistered data VNull)
    as (_ & H & _).
  - reflexivity.
  - exact H.
Defined.

(** X13: a connection that registers with the user id of somebody else
    owns that user's strokes: its [clear-mine] removes every stroke
    saved under the declared id, whichever connection drew it. *)
Theorem X13_declared_id_clears_its_strokes (sid : string) (own data v : value)
    (l : list stroke)
    (Hget : get "userId" data = Some v) (Htruthy : truthy v = true)
    (Hprim : primitive v = true) :
  let r := persistent_session sid own [Register data; ClearMine]
             (healthy (List.map Ser l)) in
  fst r = Ok v
  ∧ db (snd r) = List.map Ser (List.filter (not_owned_by v) (rev l))
  ∧ ∀ s, In (Ser s) (db (snd r)) → s !! "userId" ≠ Some v.
Proof.
  cbv zeta.
  assert (Hu : register_userId sid data = v).
  { unfold register_userId. by rewrite Hget, Htruthy. }
  assert (E : ∃ tr, persistent_session sid own [Register data; ClearMine]
                      (healthy (List.map Ser l))
                    = (Ok v, World (List.map Ser (List.filter (not_owned_by v) (rev l)))
                               [] tr)).
  { assert (Ereg : on_register sid data (healthy (List.map Ser l))
                   = (Ok v, World (List.map Ser l) []
                              [DidEmit (ToSocket sid) (UserInfo v); DidLRange;
                               DidEmit (ToSocket sid) (InitBoard (rev l))])).
    { unfold on_register, mbind, M_bind, emit, healthy. simpl.
      rewrite getFullBoardState_read_ok by done. simpl. by rewrite Hu. }
    destruct (on_clear_mine_ok v l
                [DidEmit (ToSocket sid) (UserInfo v); DidLRange;
                 DidEmit (ToSocket sid) (InitBoard (rev l))]) as [tr' Eclr].
    exists tr'.
    cbn [persistent_session persistent_connection].
    unfold mbind at 1. unfold M_bind at 1. rewrite Ereg.
    unfold mbind, M_bind. rewrite Eclr. reflexivity. }
  destruct E as [tr ->]. simpl. split; [done|]. split; [done|].
  intros s Hs. apply in_map_iff in Hs as (s' & [= ->] & Hs).
  apply filter_In in Hs as [_ Hk]. by apply not_owned_by_neq.
Qed.

Lemma X13_declared_id_clears_its_strokes_witness :
  let b := withUser (VObj {["x" := VNum 1]}) (VStr "BOB") in
  db (snd (persistent_session "q7rk2xYzAbCd" unregistered
             [Register (VObj {["userId" := VStr "BOB"]}); ClearMine]
             (healthy (List.map Ser [b]))))
  = List.map Ser (List.filter (not_owned_by (VStr "BOB")) (rev [b])).
Proof.
  intros b.
  destruct (X13_declared_id_clears_its_strokes "q7rk2xYzAbCd" unregistered
              (VObj {["userId" := VStr "BOB"]}) (VStr "BOB") [b])
    as (_ & H & _); [reflexivity..|exact H].
Defined.

(** ** Delivery of envelopes to a node *)

Lemma deliver_app (m1 m2 : list PubSub.envelope) (l : list stroke) :
  PubSub.deliver (m1 ++ m2) l =
    let '(l1, out1) := PubSub.deliver m1 l in
    let '(l2, out2) := PubSub.deliver m2 l1 in
    (l2, out1 ++ out2).
Proof.
  revert l. induction m1 as [|m m1 IH]; intros l; simpl.
  - by destruct (PubSub.deliver m2 l).
  - destruct (PubSub.on_message m l) as [la oa]. rewrite IH.
    destruct (PubSub.deliver m1 la) as [l1 o1].
    destruct (PubSub.deliver m2 l1) as [l2 o2].
    by rewrite app_assoc.
Qed.

(** X14: a delivered [clear-all] erases everything before it: the
    [strokes] array after a sequence of envelopes depends only on the
    envelopes that follow the last [clear-all] delivered. *)
Theorem X14_clear_all_erases_history (before after : list PubSub.envelope)
    (l : list stroke) :
  fst (PubSub.deliver (before ++ PubSub.EClearAll :: after) l)
  = fst (PubSub.deliver after []).
Proof.
  rewrite deliver_app.
  destruct (PubSub.deliver before l) as [l1 o1]. simpl.
  by destruct (PubSub.deliver after []) as [l2 o2].
Qed.

(** X15: [draw] envelopes are appended in the order of their delivery,
    behind the strokes already there, and each is emitted once, to all
    connections, in the same order. *)
Theorem X15_draws_kept_in_delivery_order (ds l : list stroke) :
  PubSub.deliver (List.map PubSub.EDraw ds) l =
    (l ++ ds, List.map (λ s, (ToAll, DrawEv s)) ds).
Proof.
  revert l. induction ds as [|s ds IH]; intros l; simpl.
  - by rewrite app_nil_r.
  - rewrite IH. by rewrite <- app_assoc.
Qed.

Lemma filter_comm {A} (f g : A → bool) (l : list A) :
  List.filter f (List.filter g l) = List.filter g (List.filter f l).
Proof.
  induction l as [|a l IH]; simpl; [done|].
  destruct (f a) eqn:Hf, (g a) eqn:Hg; simpl; rewrite ?Hf, ?Hg, IH; done.
Qed.

Lemma filter_idem {A} (f : A → bool) (l : list A) :
  List.filter f (List.filter f l) = List.filter f l.
Proof.
  induction l as [|a l IH]; simpl; [done|].
  destruct (f a) eqn:Hf; simpl; rewrite ?Hf, IH; done.
Qed.

(** X16: [clear-user] envelopes can be duplicated and reordered among
    themselves: a second delivery for the same user changes neither the
    array nor the board sent with [reset-board], and the envelopes of two
    users leave the same array in either order. *)
Theorem X16_clear_user_idempotent_and_commutative (u v : value) (l : list stroke) :
  let clear_u := PubSub.EClearUser u in
  let clear_v := PubSub.EClearUser v in
  PubSub.on_message clear_u (fst (PubSub.on_message clear_u l))
    = PubSub.on_message clear_u l
  ∧ fst (PubSub.deliver [clear_u; clear_v] l) = fst (PubSub.deliver [clear_v; clear_u] l).
Proof.
  cbv zeta. simpl. rewrite filter_idem. split; [done|]. apply filter_comm.
Qed.

Lemma filter_sublist {A} (f : A → bool) (l : list A) : sublist (List.filter f l) l.
Proof.
  induction l as [|a l IH]; simpl; [constructor|].
  destruct (f a); by constructor.
Qed.

Lemma filter_split_length {A} (f : A → bool) (l : list A) :
  (length (List.filter f l) + length (List.filter (λ a, negb (f a)) l) = length l)%nat.
Proof.
  induction l as [|a l IH]; simpl; [done|].
  destruct (f a); simpl; lia.
Qed.

(** X17: a [clear-user] envelope leaves the strokes of the other users in
    the array in their relative order and adds nothing; the array
    shrinks by the number of strokes of the user, and the [reset-board]
    event carries the array as it is afterwards. *)
Theorem X17_clear_user_frame (u : value) (l : list stroke) :
  let l' := fst (PubSub.on_message (PubSub.EClearUser u) l) in
  sublist l' l
  ∧ (∀ s, In s l' ↔ In s l ∧ not_owned_by u s = true)
  ∧ (length l' + length (List.filter (λ s, negb (not_owned_by u s)) l) = length l)%nat
  ∧ snd (PubSub.on_message (PubSub.EClearUser u) l) = [(ToAll, ResetBoard l')].
Proof.
  cbv zeta. simpl. split; [apply filter_sublist|]. split; [|split].
  - intros s. apply filter_In.
  - apply filter_split_length.
  - reflexivity.
Qed.


(** * The client *)

Lemma coords_at_index (es : list Canvas.native_event) (j : nat) :
  Canvas.at_index (Canvas.coords es) (2 * j) = from_option Canvas.offsetX None (es !! j)
  ∧ Canvas.at_index (Canvas.coords es) (2 * j + 1)
    = from_option Canvas.offsetY None (es !! j).
Proof.
  unfold Canvas.at_index. revert j. induction es as [|e es IH]; intros j.
  - by rewrite !lookup_nil.
  - destruct j as [|j]; [done|].
    replace (2 * S j)%nat with (S (S (2 * j))) by lia.
    replace (S (S (2 * j)) + 1)%nat with (S (S (2 * j + 1))) by lia.
    simpl. apply IH.
Qed.

Lemma coords_length (es : list Canvas.native_event) :
  length (Canvas.coords es) = (2 * length es)%nat.
Proof. induction es as [|e es IH]; simpl; [done|]. rewrite IH. lia. Qed.

Lemma map_lookup_seq {A B} (f : option A → B) (l : list A) :
  List.map (λ j : nat, f (l !! j)) (seq 0 (length l)) = List.map (λ a, f (Some a)) l.
Proof.
  induction l as [|a l IH]; simpl; [done|]. f_equal.
  rewrite <- seq_shift, map_map. exact IH.
Qed.

Lemma trace_points_coords (e0 : Canvas.native_event) (es : list Canvas.native_event) :
  Canvas.trace_points (Canvas.coords (e0 :: es)) =
    Canvas.MoveTo (Canvas.offsetX e0) (Canvas.offsetY e0)
    :: List.map (λ e, Canvas.LineTo (Canvas.offsetX e) (Canvas.offsetY e)) es.
Proof.
  unfold Canvas.trace_points. rewrite coords_length. simpl length.
  replace (2 * S (length es) - 1)%nat with (1 + length es * 2)%nat by lia.
  rewrite Nat.div_add by lia.
  change (0 <? 2 * S (length es))%nat with true. cbv iota.
  change (1 / 2 + length es)%nat with (length es).
  f_equal.
  pose proof (map_lookup_seq
                (λ o : option Canvas.native_event,
                   Canvas.LineTo (from_option Canvas.offsetX None o)
                     (from_option Canvas.offsetY None o)) es) as Hm.
  simpl in Hm. rewrite <- Hm.
  apply map_ext. intros j.
  destruct (coords_at_index es j) as [H1 H2].
  change (Canvas.coords (e0 :: es))
    with (Canvas.offsetX e0 :: Canvas.offsetY e0 :: Canvas.coords es).
  change (Canvas.at_index (Canvas.offsetX e0 :: Canvas.offsetY e0 :: Canvas.coords es)
            (2 + 2 * j))
    with (Canvas.at_index (Canvas.coords es) (2 * j)).
  change (Canvas.at_index (Canvas.offsetX e0 :: Canvas.offsetY e0 :: Canvas.coords es)
            (2 + 2 * j + 1))
    with (Canvas.at_index (Canvas.coords es) (2 * j + 1)).
  by rewrite H1, H2.
Qed.

Lemma draw_last (e : Canvas.native_event) (st : Canvas.state) (l : list Canvas.line)
    (ln : Canvas.line) :
  Canvas.isDrawing st = true → Canvas.yLines st = l ++ [ln] →
  let ln' := Canvas.Line (Canvas.id ln)
               (Canvas.points ln ++ [Canvas.offsetX e; Canvas.offsetY e])
               (Canvas.color ln) (Canvas.stroke ln) in
  Canvas.draw e st =
    (Canvas.State true (l ++ [ln']), [Canvas.SyncUpdate (l ++ [ln'])]).
Proof.
  intros Hd Hl. cbv zeta. unfold Canvas.draw. rewrite Hd, Hl. simpl negb. cbv iota.
  rewrite length_app. simpl length.
  replace (length l + 1)%nat with (S (length l)) by lia.
  rewrite list_lookup_middle by done.
  unfold Canvas.y_delete, Canvas.y_insert.
  rewrite take_app_length.
  replace (length l + 1)%nat with (length (l ++ [ln])) by (rewrite length_app; simpl; lia).
  rewrite drop_all, app_nil_r.
  by rewrite firstn_all, drop_all, app_nil_r.
Qed.

Lemma defined_is_mouse (e0 : Canvas.native_event) (es : list Canvas.native_event) :
  forallb Canvas.defined
    (Canvas.MoveTo (Canvas.offsetX e0) (Canvas.offsetY e0)
     :: List.map (λ e, Canvas.LineTo (Canvas.offsetX e) (Canvas.offsetY e)) es)
  = forallb Canvas.is_mouse (e0 :: es).
Proof.
  simpl. f_equal; [by destruct e0|].
  induction es as [|e es IH]; simpl; [done|]. rewrite IH. by destruct e.
Qed.

(** X21: a gesture becomes one line that holds what the events carried.
    After [startDrawing] on an event and [draw] on each of the following
    ones, [yLines] holds the lines it held and, behind them, one new line
    with the colour, width and id of the start and with the [offsetX] and
    [offsetY] read from every event, in order; [drawCanvas] moves to the
    first pair and draws a segment to each of the others.  The values it
    passes are all numbers exactly when every event of the gesture is a
    mouse event: a touch event contributes two [undefined]. *)
Theorem X21_gesture_draws_its_path (st : Canvas.state) (new_id c : string) (w : Z)
    (e0 : Canvas.native_event) (es : list Canvas.native_event) :
  let inputs := Canvas.PointerDown new_id c w e0 :: List.map Canvas.PointerMove es in
  let ln := Canvas.Line new_id (Canvas.coords (e0 :: es)) c w in
  Canvas.run inputs st = Canvas.State true (Canvas.yLines st ++ [ln])
  ∧ Canvas.trace_points (Canvas.points ln) =
      Canvas.MoveTo (Canvas.offsetX e0) (Canvas.offsetY e0)
      :: List.map (λ e, Canvas.LineTo (Canvas.offsetX e) (Canvas.offsetY e)) es
  ∧ forallb Canvas.defined (Canvas.trace_points (Canvas.points ln))
    = forallb Canvas.is_mouse (e0 :: es).
Proof.
  cbv zeta. split; [|split].
  - simpl Canvas.run.
    change (Canvas.coords (e0 :: es))
      with ([Canvas.offsetX e0; Canvas.offsetY e0] ++ Canvas.coords es).
    generalize [Canvas.offsetX e0; Canvas.offsetY e0] as pts. unfold Canvas.y_push.
    generalize (Canvas.yLines st) as l. clear st.
    induction es as [|e es IH]; intros l pts; simpl.
    + by rewrite app_nil_r.
    + rewrite (draw_last e _ l (Canvas.Line new_id pts c w)) by done.
      simpl. rewrite IH. by rewrite <- app_assoc.
  - apply trace_points_coords.
  - cbn [Canvas.points]. rewrite trace_points_coords. apply defined_is_mouse.
Qed.

(** X22: [draw] touches nothing but the last line.  Outside a gesture,
    or with an empty array, it changes nothing and sends nothing; during
    a gesture the array keeps its length and all lines but the last, and
    the last line keeps its id, colour and width and gains exactly the
    two values read from the event. *)
Theorem X22_draw_extends_last_line_only (e : Canvas.native_event) (st : Canvas.state) :
  (Canvas.isDrawing st = false → Canvas.draw e st = (st, []))
  ∧ (Canvas.yLines st = [] → Canvas.draw e st = (st, []))
  ∧ (Canvas.isDrawing st = true →
     ∀ l ln, Canvas.yLines st = l ++ [ln] →
       let st' := fst (Canvas.draw e st) in
       Canvas.yLines st' =
         l ++ [Canvas.Line (Canvas.id ln)
                 (Canvas.points ln ++ [Canvas.offsetX e; Canvas.offsetY e])
                 (Canvas.color ln) (Canvas.stroke ln)]
       ∧ length (Canvas.yLines st') = length (Canvas.yLines st)
       ∧ snd (Canvas.draw e st) = [Canvas.SyncUpdate (Canvas.yLines st')]).
Proof.
  split; [|split].
  - intros H. unfold Canvas.draw. by rewrite H.
  - intros H. unfold Canvas.draw. rewrite H. by destruct (Canvas.isDrawing st).
  - intros Hd l ln Hl. cbv zeta. rewrite (draw_last e st l ln Hd Hl). simpl.
    split; [done|]. split; [|done]. rewrite Hl, !length_app. reflexivity.
Qed.

Lemma whole_trace_defined (pts : list Canvas.coordinate) :
  (0 <? length pts)%nat && Nat.even (length pts) = true →
  forallb (λ c : Canvas.coordinate, bool_decide (is_Some c)) pts = true →
  forallb Canvas.defined (Canvas.trace_points pts) = true.
Proof.
  intros H Hnum. apply andb_prop in H as [Hpos Hev].
  apply Nat.ltb_lt in Hpos. apply Nat.even_spec in Hev as [k Hk].
  unfold Canvas.trace_points.
  destruct (0 <? length pts)%nat eqn:E; [|done].
  assert (Hsome : ∀ i, (i < length pts)%nat →
                       bool_decide (is_Some (Canvas.at_index pts i)) = true).
  { intros i Hi. unfold Canvas.at_index.
    destruct (lookup_lt_is_Some_2 pts i Hi) as [c Hc]. rewrite Hc.
    rewrite forallb_forall in Hnum. apply Hnum.
    apply list_elem_of_In. by eapply list_elem_of_lookup_2. }
  assert (Hdiv : (2 * ((length pts - 1) / 2) ≤ length pts - 1)%nat)
    by (apply Nat.Div0.mul_div_le).
  remember ((length pts - 1) / 2)%nat as n eqn:Hn. clear Hn.
  cbn [forallb Canvas.defined]. rewrite !Hsome by lia. simpl andb.
  apply forallb_forall. intros op Hop.
  apply in_map_iff in Hop as (j & <- & Hj). apply in_seq in Hj as [_ Hj].
  cbn [Canvas.defined]. rewrite !Hsome by lia. reflexivity.
Qed.

Lemma handle_last (i : Canvas.input) (st : Canvas.state) :
  Canvas.yLines (fst (Canvas.handle i st)) = Canvas.yLines st
  ∨ Canvas.yLines (fst (Canvas.handle i st)) = []
  ∨ (∃ nid c w e, i = Canvas.PointerDown nid c w e
       ∧ Canvas.yLines (fst (Canvas.handle i st))
         = Canvas.yLines st
           ++ [Canvas.Line nid [Canvas.offsetX e; Canvas.offsetY e] c w])
  ∨ (∃ e l ln, i = Canvas.PointerMove e ∧ Canvas.yLines st = l ++ [ln]
       ∧ Canvas.yLines (fst (Canvas.handle i st))
         = l ++ [Canvas.Line (Canvas.id ln)
                   (Canvas.points ln ++ [Canvas.offsetX e; Canvas.offsetY e])
                   (Canvas.color ln) (Canvas.stroke ln)]).
Proof.
  destruct i as [nid c w e|e| |]; simpl.
  - right. right. left. by exists nid, c, w, e.
  - destruct (Canvas.isDrawing st) eqn:Hd.
    2:{ left. unfold Canvas.draw. by rewrite Hd. }
    destruct (Canvas.yLines st) as [|a0 l1] eqn:Hl0.
    { left. unfold Canvas.draw. rewrite Hd, Hl0. simpl. by rewrite Hl0. }
    destruct (exists_last (l := a0 :: l1)) as (l0 & a & Hl); [done|].
    rewrite Hl in Hl0. right. right. right. exists e, l0, a.
    split; [done|]. split; [by rewrite Hl|].
    by rewrite (draw_last e st l0 a Hd Hl0).
  - left. unfold Canvas.endDrawing. by destruct (Canvas.isDrawing st).
  - right. left. unfold Canvas.y_delete. simpl. by rewrite drop_all.
Qed.

Lemma handle_whole (i : Canvas.input) (st : Canvas.state) :
  forallb Canvas.whole (Canvas.yLines st) = true →
  forallb Canvas.whole (Canvas.yLines (fst (Canvas.handle i st))) = true.
Proof.
  intros H.
  destruct (handle_last i st)
    as [->|[->|[(nid & c & w & e & _ & ->)|(e & l & ln & _ & Hl & ->)]]];
    [done|done|..].
  - by rewrite forallb_app, H.
  - rewrite Hl, forallb_app in H. apply andb_prop in H as [H1 H2].
    rewrite forallb_app, H1. simpl in *. rewrite Bool.andb_true_r in H2 |- *.
    unfold Canvas.whole in *. simpl. rewrite length_app. simpl.
    apply andb_prop in H2 as [Hp He].
    apply andb_true_intro. split.
    + apply Nat.ltb_lt. lia.
    + replace (length (Canvas.points ln) + 2)%nat
        with (S (S (length (Canvas.points ln)))) by lia.
      by rewrite Nat.even_succ_succ.
Qed.

Lemma handle_numeric (i : Canvas.input) (st : Canvas.state) :
  Canvas.by_mouse i = true →
  forallb Canvas.numeric (Canvas.yLines st) = true →
  forallb Canvas.numeric (Canvas.yLines (fst (Canvas.handle i st))) = true.
Proof.
  intros Hm H.
  destruct (handle_last i st)
    as [->|[->|[(nid & c & w & e & -> & ->)|(e & l & ln & -> & Hl & ->)]]];
    [done|done|..].
  - rewrite forallb_app, H. simpl in Hm. by destruct e.
  - rewrite Hl, forallb_app in H. apply andb_prop in H as [H1 H2].
    rewrite forallb_app, H1. simpl in *. rewrite Bool.andb_true_r in H2 |- *.
    unfold Canvas.numeric in *. simpl. rewrite forallb_app, H2.
    by destruct e.
Qed.

(** X23: the handlers keep every line whole, whatever the events: if
    each line of [yLines] has a positive, even number of array elements,
    so has each line after any sequence of presses, moves, releases and
    clears.  If moreover the elements are numbers and every event is a
    mouse event, the elements stay numbers and [drawCanvas] passes no
    [undefined] to [moveTo] or [lineTo]; after a press that comes with a
    touch event it does pass [undefined]. *)
Theorem X23_lines_stay_whole (inputs : list Canvas.input) (st : Canvas.state)
    (canvas : option (Z * Z))
    (Hwhole : forallb Canvas.whole (Canvas.yLines st) = true) :
  forallb Canvas.whole (Canvas.yLines (Canvas.run inputs st)) = true
  ∧ (forallb Canvas.numeric (Canvas.yLines st) = true →
     forallb Canvas.by_mouse inputs = true →
     forallb Canvas.numeric (Canvas.yLines (Canvas.run inputs st)) = true
     ∧ forallb Canvas.defined
         (Canvas.drawCanvas canvas (Canvas.yLines (Canvas.run inputs st))) = true)
  ∧ ∀ nid c w wh,
      forallb Canvas.defined
        (Canvas.drawCanvas (Some wh)
           (Canvas.yLines
              (Canvas.run [Canvas.PointerDown nid c w Canvas.TouchEvent] st))) = false.
Proof.
  assert (Hrun : forallb Canvas.whole (Canvas.yLines (Canvas.run inputs st)) = true).
  { revert st Hwhole. induction inputs as [|i r IH]; intros st H; simpl; [done|].
    apply IH. by apply handle_whole. }
  split; [exact Hrun|]. split.
  - intros Hnum Hmouse.
    assert (Hn : forallb Canvas.numeric (Canvas.yLines (Canvas.run inputs st)) = true).
    { clear Hrun Hwhole. revert st Hnum.
      induction inputs as [|i r IH]; intros st H; simpl; [done|].
      simpl in Hmouse. apply andb_prop in Hmouse as [Hi Hr].
      apply IH; [done|]. by apply handle_numeric. }
    split; [exact Hn|].
    destruct canvas as [[w h]|]; [|done]. simpl.
    revert Hrun Hn. generalize (Canvas.yLines (Canvas.run inputs st)) as l.
    induction l as [|ln l IH]; simpl; [done|].
    intros H Hn. apply andb_prop in H as [Hln Hl]. apply andb_prop in Hn as [Hnln Hnl].
    rewrite forallb_app, (IH Hl Hnl), Bool.andb_true_r.
    unfold Canvas.draw_line. simpl. rewrite forallb_app. simpl.
    rewrite Bool.andb_true_r. by apply whole_trace_defined.
  - intros nid c w [cw ch]. simpl. unfold Canvas.y_push.
    rewrite flat_map_app, forallb_app. simpl. apply Bool.andb_false_r.
Qed.

Lemma X23_lines_stay_whole_witness :
  forallb Canvas.whole
    (Canvas.yLines
       (Canvas.run [Canvas.PointerDown "id-1" "#ff0000" 3 (Canvas.MouseEvent 10 20);
                    Canvas.PointerMove Canvas.TouchEvent; Canvas.PointerUp]
          (Canvas.State false []))) = true.
Proof.
  apply (X23_lines_stay_whole
           [Canvas.PointerDown "id-1" "#ff0000" 3 (Canvas.MouseEvent 10 20);
            Canvas.PointerMove Canvas.TouchEvent; Canvas.PointerUp]
           (Canvas.State false []) (Some (800, 600)%Z)).
  reflexivity.
Defined.

Lemma draw_empty (e : Canvas.native_event) (d : bool) :
  Canvas.draw e (Canvas.State d []) = (Canvas.State d [], []).
Proof. by destruct d. Qed.

(** X24: a clear in the middle of a gesture ends the line: [handleClear]
    empties the array whatever it held and sends the empty document, and
    the [draw] events that follow, up to the next [startDrawing], find
    no last line, change nothing and send nothing. *)
Theorem X24_clear_during_gesture (st : Canvas.state) (es : list Canvas.native_event) :
  Canvas.handleClear st =
    (Canvas.State (Canvas.isDrawing st) [], [Canvas.SyncUpdate []])
  ∧ Canvas.run (Canvas.ClearButton :: List.map Canvas.PointerMove es) st
    = Canvas.State (Canvas.isDrawing st) []
  ∧ ∀ e, snd (Canvas.draw e (fst (Canvas.handleClear st))) = [].
Proof.
  assert (E : Canvas.handleClear st =
                (Canvas.State (Canvas.isDrawing st) [], [Canvas.SyncUpdate []])).
  { unfold Canvas.handleClear, Canvas.y_delete. simpl. by rewrite drop_all. }
  split; [exact E|]. split.
  - cbn [Canvas.run Canvas.handle]. rewrite E. cbn [fst].
    generalize (Canvas.isDrawing st) as d.
    induction es as [|e es IH]; intros d; [done|].
    cbn [List.map Canvas.run Canvas.handle]. rewrite draw_empty. apply IH.
  - intros e. rewrite E. cbn [fst]. by rewrite draw_empty.
Qed.
